(** * Cloudflare load-balancer monitor: the poll / diff / notify loop

    A shallow embedding of [src/pages/Dashboard.tsx] (the pool fetcher and
    the [load] cycle of the [Dashboard] component), of [src/helpers/audio.ts]
    (the tone generator) and of the [fetchAllPools] of the single-file
    variant of the application, which differs from the dashboard's.

    JavaScript values are modelled by the types the TypeScript interfaces
    declare: an optional field is an [option], the [Map] held by
    [prevStatusRef] is a [gmap] from keys to tri-state values, arrays are
    lists, numbers that only ever hold integers are [Z] or [nat], and the
    audio clock (seconds) is a rational. *)

From Stdlib Require Import QArith Ascii.
From stdpp Require Import gmap strings list fin_maps pretty.

Open Scope string_scope.
Open Scope list_scope.
Open Scope stdpp_scope.

(** ** Data model *)

(** [interface CFOrigin]: every field is optional. *)
Record CFOrigin := {
  name : option string;
  address : option string;
  enabled : option bool;
  healthy : option bool
}.

(** [interface CFPool].  The field [origins] is declared as an array, but the
    code checks it with [Array.isArray] before use; [None] stands for a value
    that is not an array. *)
Record CFPool := {
  id : string;
  pool_name : string;
  description : option string;
  origins : option (list CFOrigin);
  pool_healthy : option bool
}.

(** The elements of [changes: Array<"online" | "offline">]. *)
Inductive Change := online | offline.

#[global] Instance Change_eq_dec : EqDecision Change.
Proof. solve_decision. Defined.

(** The tri-state held in the snapshot: [boolean | undefined]. *)
Abbreviation TriState := (option bool).
Abbreviation Snapshot := (gmap string TriState).

(** ** JavaScript primitives used by the diff pass *)

(** [a || b] on an optional string [a]: [undefined] and the empty string are
    falsy. *)
Definition orElse (a : option string) (b : string) : string :=
  match a with
  | Some s => if decide (s = "") then b else s
  | None => b
  end.

(** [String(idx)] for an array index. *)
Definition String_of_index (idx : nat) : string := pretty idx.

(** [Map.prototype.get]: [undefined] for a missing key, the stored value
    (which may itself be [undefined]) otherwise. *)
Definition Map_get (m : Snapshot) (key : string) : TriState :=
  match m !! key with
  | Some v => v
  | None => None
  end.

(** [Map.prototype.set]. *)
Definition Map_set (m : Snapshot) (key : string) (v : TriState) : Snapshot :=
  <[key := v]> m.

(** [prev !== cur] on tri-state values. *)
Definition strictNe (prev cur : TriState) : bool :=
  negb (bool_decide (prev = cur)).

(** [typeof cur === "boolean"]. *)
Definition typeofBoolean (cur : TriState) : bool :=
  match cur with Some _ => true | None => false end.

(** [cur ? "online" : "offline"]: [undefined] and [false] are falsy. *)
Definition changeOf (cur : TriState) : Change :=
  match cur with Some true => online | _ => offline end.

(** [Array.prototype.forEach] with the element index passed to the callback;
    the callback's effect on the enclosing variables is a state passed
    along. *)
Fixpoint forEachFrom {A St : Type} (f : St → A → nat → St) (i : nat)
    (l : list A) (s : St) : St :=
  match l with
  | [] => s
  | x :: l' => forEachFrom f (S i) l' (f s x i)
  end.

Definition forEach {A St : Type} (f : St → A → nat → St) (l : list A)
    (s : St) : St :=
  forEachFrom f 0 l s.

(** ** The diff pass of [load] *)

(** The key [`${p.id}/${o.name || o.address || String(idx)}`]. *)
Definition originKey (p : CFPool) (o : CFOrigin) (idx : nat) : string :=
  id p +:+ "/" +:+ orElse (name o) (orElse (address o) (String_of_index idx)).

(** The two locals the pass fills in: [changes] and [nextMap]. *)
Record DiffAcc := {
  changes : list Change;
  nextMap : Snapshot
}.

Definition diffStart : DiffAcc := {| changes := []; nextMap := ∅ |}.

(** The body of [origins.forEach((o, idx) => ...)].  [firstLoad] and
    [prevStatus] are the current contents of [firstLoadRef] and
    [prevStatusRef], which the pass only reads. *)
Definition visitOrigin (firstLoad : bool) (prevStatus : Snapshot) (p : CFPool)
    (acc : DiffAcc) (o : CFOrigin) (idx : nat) : DiffAcc :=
  let key := originKey p o idx in
  let cur := healthy o in
  let prev := Map_get prevStatus key in
  let next := Map_set (nextMap acc) key cur in
  if negb firstLoad && strictNe prev cur && typeofBoolean cur
  then {| changes := changes acc ++ [changeOf cur]; nextMap := next |}
  else {| changes := changes acc; nextMap := next |}.

(** [Array.isArray(p.origins) ? p.origins : []]. *)
Definition originsOf (p : CFPool) : list CFOrigin :=
  match origins p with Some os => os | None => [] end.

(** The body of [items.forEach((p) => ...)]. *)
Definition visitPool (firstLoad : bool) (prevStatus : Snapshot)
    (acc : DiffAcc) (p : CFPool) (_ : nat) : DiffAcc :=
  forEach (visitOrigin firstLoad prevStatus p) (originsOf p) acc.

(** The whole pass over the fetched [items]. *)
Definition diffPass (firstLoad : bool) (prevStatus : Snapshot)
    (items : list CFPool) : DiffAcc :=
  forEach (visitPool firstLoad prevStatus) items diffStart.

(** ** Thrown values *)

(** What a [throw] or a rejected promise carries, as far as [load] looks at
    it: whether it is an object, whether it is [instanceof DOMException] or
    [instanceof Error], its [name] property when it has one (["name" in e]),
    its [message], and [String(e)]. *)
Record JsThrown := {
  isObject : bool;
  instanceofDOMException : bool;
  instanceofError : bool;
  thrown_name : option string;
  message : string;
  toStr : string
}.

(** [new Error(msg)]. *)
Definition newError (msg : string) : JsThrown :=
  {| isObject := true; instanceofDOMException := false;
     instanceofError := true; thrown_name := Some "Error";
     message := msg; toStr := "Error: " +:+ msg |}.

(** The [DOMException] named [AbortError] with which [fetch] rejects once
    its signal is aborted. *)
Definition abortException (msg : string) : JsThrown :=
  {| isObject := true; instanceofDOMException := true;
     instanceofError := true; thrown_name := Some "AbortError";
     message := msg; toStr := "AbortError: " +:+ msg |}.

(** The [TypeError] of spreading a value that is not iterable (the text of
    the message depends on the engine). *)
Definition notIterable : JsThrown :=
  {| isObject := true; instanceofDOMException := false;
     instanceofError := true; thrown_name := Some "TypeError";
     message := "data.result is not iterable";
     toStr := "TypeError: data.result is not iterable" |}.

(** [const isAbortError = (e) => ...]. *)
Definition isAbortError (e : JsThrown) : bool :=
  (instanceofDOMException e && bool_decide (thrown_name e = Some "AbortError"))
  || (isObject e
      && bool_decide (is_Some (thrown_name e))
      && bool_decide (thrown_name e = Some "AbortError")).

(** The result of an [async] call: fulfilled with a value or rejected. *)
Inductive Outcome (A : Type) :=
| Returned (a : A)
| Thrown (e : JsThrown).
Arguments Returned {A} a.
Arguments Thrown {A} e.

(** ** The remote API as the fetcher sees it *)

Record CFResultInfo := {
  total_pages : option Z
}.

(** [interface CFListResponse<CFPool>].  [result] is [None] when the payload
    has no iterable [result]; [errors] holds [JSON.stringify(data.errors)]
    when [data.errors] is truthy; [stringified] is [JSON.stringify(data)]. *)
Record CFListResponse := {
  success : bool;
  result : option (list CFPool);
  result_info : option CFResultInfo;
  errors : option string;
  stringified : string
}.

(** The [Response] of one [fetch]: [text] and [json] are the outcomes of
    [res.text()] and [res.json()]. *)
Record Response := {
  ok : bool;
  status : nat;
  statusText : string;
  text : Outcome string;
  json : Outcome CFListResponse
}.

(** What the fetcher sends: the URL and the headers. *)
Record Request := {
  url : string;
  headers : list (string * string)
}.

#[global] Instance Request_eq_dec : EqDecision Request.
Proof. solve_decision. Defined.

(** A server (with the network in front of it): given the requests already
    made in this fetch cycle and the next one, the promise of [fetch]
    rejects or resolves with a response. *)
Definition Server := list Request → Request → Outcome Response.

(** [CF_BASE], by [import.meta.env.DEV]. *)
Definition CF_BASE (dev : bool) : string :=
  if dev then "/cf" else "https://api.cloudflare.com/client/v4".

Definition String_of_Z (n : Z) : string := pretty n.
Definition String_of_nat (n : nat) : string := pretty n.

(** ** [fetchAllPools] of the dashboard *)

Definition perPage : Z := 50.

(** The URL and headers built in the loop body for [page]. *)
Definition pageRequest (dev : bool) (token accountId : string) (page : Z)
    : Request :=
  {| url := CF_BASE dev +:+ "/accounts/" +:+ accountId
            +:+ "/load_balancers/pools?per_page=" +:+ String_of_Z perPage
            +:+ "&page=" +:+ String_of_Z page;
     headers := [("Authorization", "Bearer " +:+ token)] |}.

(** [data.result_info?.total_pages || 1]: [undefined] and [0] are falsy. *)
Definition totalPagesOf (data : CFListResponse) : Z :=
  match result_info data with
  | Some info =>
      match total_pages info with
      | Some n => if decide (n = 0%Z) then 1%Z else n
      | None => 1%Z
      end
  | None => 1%Z
  end.

(** One run of the fetcher: the requests it issued, in order, and how the
    call ended. *)
Record FetchRun := {
  requests : list Request;
  outcome : Outcome (list CFPool)
}.

(** The [while (true)] loop of [fetchAllPools], with the locals [page] and
    [all] and the requests issued so far.  The loop has no bound of its own
    (a server may report ever more pages), so the model takes fuel: one unit
    per iteration, [None] when it runs out. *)
Fixpoint fetchLoop (fuel : nat) (srv : Server) (dev : bool)
    (token accountId : string) (page : Z) (all : list CFPool)
    (sent : list Request) : option FetchRun :=
  match fuel with
  | O => None
  | S fuel' =>
      let req := pageRequest dev token accountId page in
      let sent' := sent ++ [req] in
      match srv sent req with
      | Thrown e => Some {| requests := sent'; outcome := Thrown e |}
      | Returned res =>
          if negb (ok res) then
            match text res with
            | Thrown e => Some {| requests := sent'; outcome := Thrown e |}
            | Returned body =>
                Some {| requests := sent';
                        outcome := Thrown (newError
                          ("HTTP " +:+ String_of_nat (status res)
                           +:+ ": " +:+ body)) |}
            end
          else
            match json res with
            | Thrown e => Some {| requests := sent'; outcome := Thrown e |}
            | Returned data =>
                if negb (success data) then
                  Some {| requests := sent';
                          outcome := Thrown (newError
                            ("API error: " +:+ default "{}" (errors data))) |}
                else
                  match result data with
                  | None =>
                      Some {| requests := sent';
                              outcome := Thrown notIterable |}
                  | Some items =>
                      let all' := all ++ items in
                      let totalPages := totalPagesOf data in
                      if bool_decide (page >= totalPages)%Z
                      then Some {| requests := sent';
                                   outcome := Returned all' |}
                      else fetchLoop fuel' srv dev token accountId
                             (page + 1)%Z all' sent'
                  end
            end
      end
  end.

Definition fetchAllPools (fuel : nat) (srv : Server) (dev : bool)
    (token accountId : string) : option FetchRun :=
  fetchLoop fuel srv dev token accountId 1%Z [] [].

(** ** [fetchAllPools] of the single-file variant of the application

    The same loop with three differences: the URL carries no [per_page] and
    [page] parameters, the error messages differ, and a missing
    [total_pages] falls back on the size of the page just received. *)
Module SingleFile.

Definition pageRequest (dev : bool) (token accountId : string) : Request :=
  {| url := CF_BASE dev +:+ "/accounts/" +:+ accountId
            +:+ "/load_balancers/pools";
     headers := [("Authorization", "Bearer " +:+ token);
                 ("Content-Type", "application/json")] |}.

(** [info.total_pages ?? (items.length < perPage ? page : page + 1)]. *)
Definition totalPagesOf (data : CFListResponse) (items : list CFPool)
    (page : Z) : Z :=
  match result_info data ≫= total_pages with
  | Some n => n
  | None =>
      if bool_decide (Z.of_nat (length items) < perPage)%Z
      then page else (page + 1)%Z
  end.

(** [text || res.statusText], after [res.text().catch(() => "")]. *)
Definition errorText (res : Response) : string :=
  let t := match text res with Returned t => t | Thrown _ => "" end in
  if decide (t = "") then statusText res else t.

Fixpoint fetchLoop (fuel : nat) (srv : Server) (dev : bool)
    (token accountId : string) (page : Z) (all : list CFPool)
    (sent : list Request) : option FetchRun :=
  match fuel with
  | O => None
  | S fuel' =>
      let req := pageRequest dev token accountId in
      let sent' := sent ++ [req] in
      match srv sent req with
      | Thrown e => Some {| requests := sent'; outcome := Thrown e |}
      | Returned res =>
          if negb (ok res) then
            Some {| requests := sent';
                    outcome := Thrown (newError
                      ("Cloudflare API error (" +:+ String_of_nat (status res)
                       +:+ "): " +:+ errorText res)) |}
          else
            match json res with
            | Thrown e => Some {| requests := sent'; outcome := Thrown e |}
            | Returned data =>
                if negb (success data) then
                  Some {| requests := sent';
                          outcome := Thrown (newError
                            ("Cloudflare API returned success=false: "
                             +:+ default (stringified data) (errors data))) |}
                else
                  let items := default [] (result data) in
                  let all' := all ++ items in
                  let totalPages := totalPagesOf data items page in
                  if bool_decide (page >= totalPages)%Z
                  then Some {| requests := sent'; outcome := Returned all' |}
                  else fetchLoop fuel' srv dev token accountId
                         (page + 1)%Z all' sent'
            end
      end
  end.

Definition fetchAllPools (fuel : nat) (srv : Server) (dev : bool)
    (token accountId : string) : option FetchRun :=
  fetchLoop fuel srv dev token accountId 1%Z [] [].

End SingleFile.

(** ** The tone generator ([helpers/audio.ts]) *)

Inductive OscillatorType := sine | square | sawtooth | triangle.

#[global] Instance OscillatorType_eq_dec : EqDecision OscillatorType.
Proof. solve_decision. Defined.

(** An oscillator node once [start] and [stop] have been called on it: its
    wave form, its frequency (Hz), the gain it is connected through, and the
    two times (seconds on the context's clock) given to [start] and
    [stop]. *)
Record Oscillator := {
  osc_type : OscillatorType;
  frequency : Z;
  gain : Q;
  startAt : Q;
  stopAt : Q
}.

Inductive AudioContextState := suspended | running | closed.

(** The one [AudioContext] behind [getAudioCtx()]: its [state], the last
    value read from [currentTime], and the oscillators started on it, oldest
    first. *)
Record AudioContext := {
  state : AudioContextState;
  currentTime : Q;
  oscillators : list Oscillator
}.

(** The context together with what the environment will answer: whether the
    next calls of [resume()] fulfil, and the next values of [currentTime]
    (the audio clock runs on its own; nothing in the code advances it). *)
Record AudioWorld := {
  ctx : AudioContext;
  resumeTape : list bool;
  clockTape : list Q
}.

(** [await ctx.resume()]: [true] when the promise fulfils (the context is
    then running), [false] when it rejects.  An exhausted tape fulfils. *)
Definition resume (w : AudioWorld) : bool * AudioWorld :=
  let fulfilled := hd true (resumeTape w) in
  (fulfilled,
   {| ctx := {| state := if fulfilled then running else state (ctx w);
                currentTime := currentTime (ctx w);
                oscillators := oscillators (ctx w) |};
      resumeTape := tl (resumeTape w);
      clockTape := clockTape w |}).

(** Reading [ctx.currentTime]: the next value of the clock, or the last one
    read when the tape is exhausted. *)
Definition readCurrentTime (w : AudioWorld) : Q * AudioWorld :=
  match clockTape w with
  | [] => (currentTime (ctx w), w)
  | t :: rest =>
      (t, {| ctx := {| state := state (ctx w); currentTime := t;
                       oscillators := oscillators (ctx w) |};
             resumeTape := resumeTape w;
             clockTape := rest |})
  end.

(** [osc.start(now); osc.stop(now + durationMs / 1000)] on a fresh node. *)
Definition startOscillator (o : Oscillator) (w : AudioWorld) : AudioWorld :=
  {| ctx := {| state := state (ctx w); currentTime := currentTime (ctx w);
               oscillators := oscillators (ctx w) ++ [o] |};
     resumeTape := resumeTape w;
     clockTape := clockTape w |}.

(** [playBeep(freq, durationMs, type)].  The promise it returns settles as
    soon as the oscillator is scheduled. *)
Definition playBeep (freq durationMs : Z) (type : OscillatorType)
    (w : AudioWorld) : AudioWorld :=
  let w1 := match state (ctx w) with
            | suspended => snd (resume w)
            | _ => w
            end in
  let '(now, w2) := readCurrentTime w1 in
  startOscillator
    {| osc_type := type; frequency := freq; gain := 8 # 100;
       startAt := now; stopAt := now + inject_Z durationMs / 1000 |} w2.

Definition playOnlineSound (w : AudioWorld) : AudioWorld :=
  playBeep 1320 100 triangle (playBeep 880 120 triangle w).

Definition playOfflineSound (w : AudioWorld) : AudioWorld :=
  playBeep 300 220 sawtooth w.

(** [changes.filter((c) => c === tag).length]. *)
Definition countOf (tag : Change) (cs : list Change) : nat :=
  length (filter (λ c, c = tag) cs).

(** The block [if (soundEnabled && changes.length) { ... }] of [load]: one
    [resume], then the offline cues, then the online cues, each call
    awaited before the next one is made. *)
Definition playSounds (soundEnabled : bool) (cs : list Change)
    (w : AudioWorld) : AudioWorld :=
  if soundEnabled && negb (bool_decide (length cs = 0%nat)) then
    let w1 := snd (resume w) in
    let offs := countOf offline cs in
    let ons := countOf online cs in
    Nat.iter ons playOnlineSound (Nat.iter offs playOfflineSound w1)
  else w.

(** ** The [Dashboard] component *)

(** The component's state ([useState]), its two refs ([useRef]), and the
    audio context of the page. *)
Record Dashboard := {
  pools : list CFPool;
  loading : bool;
  err : string;
  prevStatusRef : Snapshot;
  firstLoadRef : bool;
  audio : AudioWorld
}.

Definition setPools (items : list CFPool) (st : Dashboard) : Dashboard :=
  {| pools := items; loading := loading st; err := err st;
     prevStatusRef := prevStatusRef st; firstLoadRef := firstLoadRef st;
     audio := audio st |}.

Definition setLoading (b : bool) (st : Dashboard) : Dashboard :=
  {| pools := pools st; loading := b; err := err st;
     prevStatusRef := prevStatusRef st; firstLoadRef := firstLoadRef st;
     audio := audio st |}.

Definition setErr (msg : string) (st : Dashboard) : Dashboard :=
  {| pools := pools st; loading := loading st; err := msg;
     prevStatusRef := prevStatusRef st; firstLoadRef := firstLoadRef st;
     audio := audio st |}.

Definition setRefs (snapshot : Snapshot) (firstLoad : bool) (st : Dashboard)
    : Dashboard :=
  {| pools := pools st; loading := loading st; err := err st;
     prevStatusRef := snapshot; firstLoadRef := firstLoad;
     audio := audio st |}.

Definition setAudio (w : AudioWorld) (st : Dashboard) : Dashboard :=
  {| pools := pools st; loading := loading st; err := err st;
     prevStatusRef := prevStatusRef st; firstLoadRef := firstLoadRef st;
     audio := w |}.

(** The body of the effect up to the first call of [load]: what every
    activation (mount, or a change of [token], [accountId] or
    [soundEnabled]) does before polling. *)
Definition activate (st : Dashboard) : Dashboard :=
  setRefs ∅ true (setErr "" (setLoading true st)).

(** The value of the effect's local [alive] at the two places where a cycle
    reads it after a suspension: when the awaited [fetchAllPools] settles,
    and in [finally] after the awaits of the sound block.  The teardown of
    the effect is what sets it to [false] (and aborts the signal). *)
Record CycleEnv := {
  aliveAfterFetch : bool;
  aliveAtEnd : bool
}.

(** What one call of [load] leaves behind: the component, and the local
    [changes] it collected (empty when the diff pass did not run). *)
Record LoadResult := {
  after : Dashboard;
  emitted : list Change
}.

(** [e instanceof Error ? e.message : String(e)]. *)
Definition errorMessage (e : JsThrown) : string :=
  if instanceofError e then message e else toStr e.

(** [finally { if (alive) setLoading(false); }]. *)
Definition finallyBlock (alive : bool) (st : Dashboard) : Dashboard :=
  if alive then setLoading false st else st.

(** [load] from the point where [await fetchAllPools(...)] settles with
    [fetched].  [soundEnabled] is the value the effect closed over. *)
Definition loadSettled (soundEnabled : bool) (env : CycleEnv)
    (fetched : Outcome (list CFPool)) (st : Dashboard) : LoadResult :=
  let alive := aliveAfterFetch env in
  match fetched with
  | Returned items =>
      if negb alive then
        {| after := finallyBlock alive st; emitted := [] |}
      else
        let d := diffPass (firstLoadRef st) (prevStatusRef st) items in
        let st1 :=
          setRefs (nextMap d)
                  (if firstLoadRef st then false else firstLoadRef st) st in
        let sounding :=
          soundEnabled && negb (bool_decide (length (changes d) = 0%nat)) in
        let st2 :=
          setAudio (playSounds soundEnabled (changes d) (audio st1)) st1 in
        let st3 := setPools items st2 in
        {| after :=
             finallyBlock (if sounding then aliveAtEnd env else alive) st3;
           emitted := changes d |}
  | Thrown e =>
      if negb alive || isAbortError e then
        {| after := finallyBlock alive st; emitted := [] |}
      else
        {| after := finallyBlock alive (setErr (errorMessage e) st);
           emitted := [] |}
  end.

(** One whole call of [load] against a server; [None] when the fetch never
    settles within the fuel. *)
Definition load (fuel : nat) (srv : Server) (dev : bool)
    (token accountId : string) (soundEnabled : bool) (env : CycleEnv)
    (st : Dashboard) : option LoadResult :=
  match fetchAllPools fuel srv dev token accountId with
  | Some run => Some (loadSettled soundEnabled env (outcome run) st)
  | None => None
  end.

(** Cycles of one activation run one after the other, each to its end. *)
Definition runCycles (soundEnabled : bool)
    (cycles : list (CycleEnv * Outcome (list CFPool))) (st : Dashboard)
    : Dashboard :=
  fold_left (λ s c, after (loadSettled soundEnabled c.1 c.2 s)) cycles st.

(** What the component shows below its header: the three conditional blocks
    of the JSX, in order. *)
Inductive View :=
| Spinner
| ErrorPanel (msg : string)
| PoolsTable (items : list CFPool).

Definition render (st : Dashboard) : list View :=
  (if loading st then [Spinner] else [])
  ++ (if negb (loading st) && negb (bool_decide (err st = ""))
      then [ErrorPanel (err st)] else [])
  ++ (if negb (loading st) && bool_decide (err st = "")
      then [PoolsTable (pools st)] else []).

(** ** The diff pass seen as a list of keyed origins

    The pairs (key, current health) of the origins of the fetch, in the
    order in which the two nested [forEach] visit them. *)

Fixpoint keyedFrom (p : CFPool) (i : nat) (os : list CFOrigin)
    : list (string * TriState) :=
  match os with
  | [] => []
  | o :: os' => (originKey p o i, healthy o) :: keyedFrom p (S i) os'
  end.

Definition keyed (p : CFPool) : list (string * TriState) :=
  keyedFrom p 0 (originsOf p).

Definition keyedAll (items : list CFPool) : list (string * TriState) :=
  flat_map keyed items.

(** The writes [nextMap.set(key, cur)] of a list of keyed origins. *)
Definition recordAll (l : list (string * TriState)) (m : Snapshot) : Snapshot :=
  fold_left (λ m kc, Map_set m kc.1 kc.2) l m.

(** The event of one origin on an invocation that is not the first: one
    when the current value is a boolean and is not the previous value. *)
Definition transition (prev cur : TriState) : list Change :=
  match cur with
  | Some b => if bool_decide (prev = Some b) then [] else [changeOf cur]
  | None => []
  end.

(** ** Sample data *)

Definition mkOrigin (n a : option string) (h : TriState) : CFOrigin :=
  {| name := n; address := a; enabled := None; healthy := h |}.

Definition mkPool (i : string) (os : list CFOrigin) : CFPool :=
  {| id := i; pool_name := i; description := None; origins := Some os;
     pool_healthy := None |}.

(** A pool whose only origin is healthy, polled when nothing is recorded
    under the origin's key. *)
Definition newcomerPool : CFPool :=
  mkPool "pool-1" [mkOrigin (Some "web-1") None (Some true)].

(** A pool with two unnamed origins at the same address, the first healthy
    and the second not. *)
Definition twinPool : CFPool :=
  mkPool "pool-2"
    [mkOrigin None (Some "10.0.0.1") (Some true);
     mkOrigin None (Some "10.0.0.1") (Some false)].

(** An environment in which the effect is never torn down. *)
Definition aliveEnv : CycleEnv :=
  {| aliveAfterFetch := true; aliveAtEnd := true |}.

(** An audio context that is running at time 0 with nothing started, whose
    clock does not move while the sound block runs. *)
Definition quietWorld : AudioWorld :=
  {| ctx := {| state := running; currentTime := 0; oscillators := [] |};
     resumeTape := []; clockTape := [] |}.

(** A freshly mounted component. *)
Definition mounted : Dashboard :=
  {| pools := []; loading := true; err := ""; prevStatusRef := ∅;
     firstLoadRef := true; audio := quietWorld |}.

(** A pool with one origin, of the given health. *)
Definition soloPool (h : TriState) : CFPool :=
  mkPool "pool-3" [mkOrigin (Some "db-1") (Some "10.0.0.7") h].

(** A failure of the transport: [fetch] rejects with a [TypeError]. *)
Definition networkFailure : JsThrown :=
  {| isObject := true; instanceofDOMException := false;
     instanceofError := true; thrown_name := Some "TypeError";
     message := "Failed to fetch"; toStr := "TypeError: Failed to fetch" |}.

(** [hay.includes(needle)]. *)
Definition includes (needle hay : string) : Prop :=
  ∃ before behind, hay = before +:+ needle +:+ behind.

(** The promise of [fetch] resolved with a successful response whose
    payload has [success: true], the result array [items] and the page count
    [total] ([None] when [result_info] or its [total_pages] is missing). *)
Definition succeedsWith (r : Outcome Response) (items : list CFPool)
    (total : option Z) : Prop :=
  ∃ res data,
    r = Returned res ∧ ok res = true ∧ json res = Returned data
    ∧ success data = true ∧ result data = Some items
    ∧ result_info data ≫= total_pages = total.

(** A successful response carrying [items] and the given [result_info]. *)
Definition okResponse (items : list CFPool) (info : option CFResultInfo)
    : Response :=
  {| ok := true; status := 200; statusText := "OK";
     text := Returned "(payload)";
     json := Returned {| success := true; result := Some items;
                         result_info := info; errors := None;
                         stringified := "(payload)" |} |}.

(** A server that omits [result_info]: the first request of a cycle gets a
    full page of 50 pools, every later one a page of 3. *)
Definition omittingServer : Server :=
  λ sent _,
    Returned (okResponse
                (if bool_decide (length sent = 0%nat)
                 then replicate 50 newcomerPool else replicate 3 twinPool)
                None).

(** A server with three pages, reporting [total_pages: 3] on each: one pool
    on the first request of a cycle, two on the second, one on the third. *)
Definition threePageServer : Server :=
  λ sent _,
    Returned (okResponse
                (match length sent with
                 | O => [newcomerPool]
                 | 1%nat => [twinPool; newcomerPool]
                 | _ => [soloPool None]
                 end)
                (Some {| total_pages := Some 3%Z |})).

(** A server that refuses every request with status 403. *)
Definition forbiddenServer : Server :=
  λ _ _,
    Returned {| ok := false; status := 403; statusText := "Forbidden";
                text := Returned "Authentication error";
                json := Thrown networkFailure |}.

(** What is heard of an oscillator, apart from when: wave form and
    frequency. *)
Definition shape (o : Oscillator) : OscillatorType * Z :=
  (osc_type o, frequency o).

(** The tones of the two cues. *)
Definition offlineCue : list (OscillatorType * Z) := [(sawtooth, 300%Z)].
Definition onlineCue : list (OscillatorType * Z) :=
  [(triangle, 880%Z); (triangle, 1320%Z)].

(** Oscillators that sound one after the other: each one stops before the
    next one starts. *)
Definition serial (l : list Oscillator) : Prop :=
  ∀ i a b,
    l !! i = Some a → l !! S i = Some b → (stopAt a <= startAt b)%Q.

(** An audio context that is running, whose clock advances by 3 ms from one
    reading to the next. *)
Definition tickingWorld : AudioWorld :=
  {| ctx := {| state := running; currentTime := 0; oscillators := [] |};
     resumeTape := [];
     clockTape := [0; 3 # 1000; 6 # 1000; 9 # 1000]%Q |}.

(** ** Runs of the fetcher over several pages *)

(** The page numbers [page], [page + 1], ... of [k] successive iterations. *)
Fixpoint pagesFrom (page : Z) (k : nat) : list Z :=
  match k with
  | O => []
  | S k' => page :: pagesFrom (page + 1)%Z k'
  end.

(** What the dashboard's loop throws on the result of one [fetch], if it
    throws: the rejection of [fetch], of [res.text()] or of [res.json()],
    the [HTTP] error of a response that is not [ok], the [API error] of a
    payload with [success: false], or the [TypeError] of a missing
    [result]. *)
Definition failureOf (r : Outcome Response) : option JsThrown :=
  match r with
  | Thrown e => Some e
  | Returned res =>
      if negb (ok res) then
        match text res with
        | Thrown e => Some e
        | Returned body =>
            Some (newError ("HTTP " +:+ String_of_nat (status res)
                            +:+ ": " +:+ body))
        end
      else
        match json res with
        | Thrown e => Some e
        | Returned data =>
            if negb (success data) then
              Some (newError ("API error: " +:+ default "{}" (errors data)))
            else
              match result data with
              | None => Some notIterable
              | Some _ => None
              end
        end
  end.

(** A server whose answer depends on the request alone. *)
Definition statelessServer (f : Request → Outcome Response) : Server :=
  λ _ req, f req.

(** A server that always has one more page: page [n] reports [n + 1]
    pages. *)
Definition endlessServer : Server :=
  λ sent _,
    Returned (okResponse [newcomerPool]
                (Some {| total_pages :=
                           Some (Z.of_nat (length sent) + 2)%Z |})).

(** A server with two good pages of three, whose third request is
    refused. *)
Definition failingThirdServer : Server :=
  λ sent req,
    match length sent with
    | O => Returned (okResponse [newcomerPool]
                       (Some {| total_pages := Some 3%Z |}))
    | 1%nat => Returned (okResponse [twinPool]
                           (Some {| total_pages := Some 3%Z |}))
    | _ => forbiddenServer sent req
    end.

(** A stateless server with one full page of 50 pools and no page count. *)
Definition fullPageServer : Server :=
  statelessServer
    (λ _, Returned (okResponse (replicate 50 newcomerPool) None)).

(** A stateless server that reports two pages. *)
Definition twoPageStateless : Server :=
  statelessServer
    (λ _, Returned (okResponse [newcomerPool]
                      (Some {| total_pages := Some 2%Z |}))).

(** A server whose only page reports a page count of 0. *)
Definition zeroPagesServer : Server :=
  λ _ _, Returned (okResponse [newcomerPool]
                     (Some {| total_pages := Some 0%Z |})).

(** ** Keys and strings *)

(** Whether the character [c] occurs in [s]. *)
Fixpoint hasChar (c : ascii) (s : string) : bool :=
  match s with
  | EmptyString => false
  | String a s' => if decide (a = c) then true else hasChar c s'
  end.

(** Whether [o.name || o.address] is truthy: the key of the origin then
    does not use its position. *)
Definition named (o : CFOrigin) : bool :=
  negb (bool_decide (orElse (name o) (orElse (address o) "") = "")).

(** The pool [p] with another array of origins. *)
Definition withOrigins (p : CFPool) (os : list CFOrigin) : CFPool :=
  {| id := id p; pool_name := pool_name p; description := description p;
     origins := Some os; pool_healthy := pool_healthy p |}.

(** An environment in which the effect is torn down while the sounds of
    the cycle are being played. *)
Definition tornDownWhileSounding : CycleEnv :=
  {| aliveAfterFetch := true; aliveAtEnd := false |}.

(** A pool with two named origins. *)
Definition pairPool : CFPool :=
  mkPool "pool-4"
    [mkOrigin (Some "web-1") None (Some true);
     mkOrigin (Some "web-2") (Some "10.0.0.2") (Some false)].

(** An audio context that is suspended and whose [resume()] never
    fulfils. *)
Definition stuckWorld : AudioWorld :=
  {| ctx := {| state := suspended; currentTime := 0; oscillators := [] |};
     resumeTape := [false; false; false; false; false; false];
     clockTape := [] |}.

(** ** The credentials form and the application shell

    In this part a [string] is read as a sequence of UTF-16 code units
    below 256. *)

(** The code units below 256 that [String.prototype.trim] removes: tab,
    line feed, vertical tab, form feed, carriage return, space and
    no-break space. *)
Definition isWhiteSpace (c : ascii) : bool :=
  bool_decide (nat_of_ascii c ∈ [9; 10; 11; 12; 13; 32; 160]%nat).

Fixpoint trimStart (s : string) : string :=
  match s with
  | EmptyString => EmptyString
  | String c s' => if isWhiteSpace c then trimStart s' else s
  end.

Fixpoint trimEnd (s : string) : string :=
  match s with
  | EmptyString => EmptyString
  | String c s' =>
      let r := trimEnd s' in
      if isWhiteSpace c && bool_decide (r = "") then "" else String c r
  end.

(** [s.trim()]. *)
Definition trim (s : string) : string := trimEnd (trimStart s).

(** [interface Credentials]. *)
Record Credentials := {
  token : string;
  accountId : string
}.

(** The state of [CredentialsForm]: the two inputs and the error line. *)
Record CredentialsForm := {
  form_token : string;
  form_accountId : string;
  form_err : string
}.

(** [submit]: the form afterwards, and the argument of [onSave] when it is
    called. *)
Definition submit (f : CredentialsForm)
    : CredentialsForm * option Credentials :=
  let cleared :=
    {| form_token := form_token f; form_accountId := form_accountId f;
       form_err := "" |} in
  if bool_decide (trim (form_token f) = "")
     || bool_decide (trim (form_accountId f) = "") then
    ({| form_token := form_token f; form_accountId := form_accountId f;
        form_err := "Both fields are required" |}, None)
  else if bool_decide (String.length (form_accountId f) < 10)%nat then
    ({| form_token := form_token f; form_accountId := form_accountId f;
        form_err := "Account ID looks too short." |}, None)
  else
    (cleared, Some {| token := trim (form_token f);
                      accountId := trim (form_accountId f) |}).

(** [s.split(sep)] for a separator that is not empty: [skip] counts the
    code units of a separator just found that are still to be passed, [acc]
    is the piece being read. *)
Fixpoint splitFrom (sep : string) (skip : nat) (s : string) (acc : string)
    : list string :=
  match s with
  | EmptyString => [acc]
  | String c s' =>
      match skip with
      | S k => splitFrom sep k s' acc
      | O =>
          if String.prefix sep s
          then acc :: splitFrom sep (String.length sep - 1) s' ""
          else splitFrom sep 0 s' (acc +:+ String c "")
      end
  end.

Definition split (sep : string) (s : string) : list string :=
  splitFrom sep 0 s "".

(** [getCookie(name)], on the value of [document.cookie]. *)
Definition getCookie (documentCookie : string) (cookieName : string)
    : option string :=
  match find (λ row, String.prefix (cookieName +:+ "=") row)
             (split "; " documentCookie) with
  | Some found => split "=" found !! 1%nat
  | None => None
  end.

(** The state of [App]: the credentials, and the strings assigned to
    [document.cookie] so far. *)
Record App := {
  creds : Credentials;
  cookieWrites : list string
}.

(** [setCookie(name, value)]; [expires] is the date string computed from
    the clock. *)
Definition setCookie (expires : string) (cookieName value : string)
    (a : App) : App :=
  {| creds := creds a;
     cookieWrites :=
       cookieWrites a
       ++ [cookieName +:+ "=" +:+ value +:+ "; expires=" +:+ expires
           +:+ "; path=/;"] |}.

Definition delCookie (cookieName : string) (a : App) : App :=
  {| creds := creds a;
     cookieWrites :=
       cookieWrites a
       ++ [cookieName
           +:+ "=; expires=Thu, 01 Jan 1970 00:00:01 GMT; path=/"] |}.

Definition setCreds (c : Credentials) (a : App) : App :=
  {| creds := c; cookieWrites := cookieWrites a |}.

(** The initial state of [App], from the value of [document.cookie]. *)
Definition initialApp (documentCookie : string) : App :=
  {| creds := {| token := default "" (getCookie documentCookie "cf_api_token");
                 accountId :=
                   default "" (getCookie documentCookie "cf_account_id") |};
     cookieWrites := [] |}.

(** [Boolean(creds.token && creds.accountId)]. *)
Definition haveCreds (a : App) : bool :=
  negb (bool_decide (token (creds a) = ""))
  && negb (bool_decide (accountId (creds a) = "")).

Definition handleSave (expires : string) (c : Credentials) (a : App) : App :=
  setCreds {| token := token c; accountId := accountId c |}
    (setCookie expires "cf_account_id" (accountId c)
       (setCookie expires "cf_api_token" (token c) a)).

Definition handleLogout (a : App) : App :=
  setCreds {| token := ""; accountId := "" |}
    (delCookie "cf_account_id" (delCookie "cf_api_token" a)).

(** What [App] renders inside its container. *)
Inductive AppView :=
| DashboardView (tok acct : string)
| CredentialsFormView (initialToken initialAccount : string).

Definition appView (a : App) : AppView :=
  if haveCreds a
  then DashboardView (token (creds a)) (accountId (creds a))
  else CredentialsFormView (token (creds a)) (accountId (creds a)).

(** The value of [document.cookie] for a list of cookies: the pairs
    [name=value] joined by a semicolon and a space. *)
Fixpoint cookieString (jar : list (string * string)) : string :=
  match jar with
  | [] => ""
  | (n, v) :: rest =>
      match rest with
      | [] => n +:+ "=" +:+ v
      | _ => n +:+ "=" +:+ v +:+ "; " +:+ cookieString rest
      end
  end.

(** The part of a string before its first equals sign. *)
Definition upToEquals (v : string) : string := hd "" (split "=" v).

(** The first cookie of the jar with a given name. *)
Fixpoint firstCookie (cookieName : string) (jar : list (string * string))
    : option string :=
  match jar with
  | [] => None
  | (n, v) :: rest =>
      if decide (n = cookieName) then Some v else firstCookie cookieName rest
  end.

(** A cookie jar whose names hold neither a semicolon nor an equals sign
    and whose values hold no semicolon, as the browser keeps it. *)
Definition wellFormedJar (jar : list (string * string)) : Prop :=
  Forall (λ nv, hasChar ";" nv.1 = false ∧ hasChar "=" nv.1 = false
                ∧ hasChar ";" nv.2 = false) jar.

(** ** The pools table and the development proxy *)

(** The React key of an origin row,
    [`${o.name || o.address || i}-${i}`]. *)
Definition originRowKey (o : CFOrigin) (i : nat) : string :=
  orElse (name o) (orElse (address o) (String_of_index i))
  +:+ "-" +:+ String_of_index i.

(** The text of an origin row: [o.name || o.address || "origin"],
    followed by the address in parentheses when there is one. *)
Definition originRowText (o : CFOrigin) : string :=
  orElse (name o) (orElse (address o) "origin")
  +:+ match address o with
      | Some a => if decide (a = "") then "" else " (" +:+ a +:+ ")"
      | None => ""
      end.

(** [rewrite: (path) => path.replace(/^\/cf/, "")] of the proxy entry for
    [/cf] in [vite.config.ts]. *)
Definition rewritePath (path : string) : string :=
  match path with
  | String "/" (String "c" (String "f" rest)) => rest
  | _ => path
  end.

(** The [target] of that proxy entry. *)
Definition proxyTarget : string := "https://api.cloudflare.com/client/v4".

(** A form whose account id is three characters and seven spaces. *)
Definition paddedForm : CredentialsForm :=
  {| form_token := "secret"; form_accountId := "abc       ";
     form_err := "" |}.

(** A jar with the two cookies of the application and a third one. *)
Definition sampleJar : list (string * string) :=
  [("theme", "dark"); ("cf_api_token", "secret");
   ("cf_account_id", "0123456789")].

(** A jar in which the token holds an equals sign. *)
Definition paddedTokenJar : list (string * string) :=
  [("cf_api_token", "c2VjcmV0" +:+ "=" +:+ "=");
   ("cf_account_id", "0123456789")].

(** ** Origins by position *)

(** The origin at position [i] of the pool at position [a] of a fetch,
    read from the [origins] array of the pool. *)
Definition originOf (items : list CFPool) (a i : nat)
    : option (CFPool * CFOrigin) :=
  match items !! a with
  | Some p =>
      match origins p with
      | Some os =>
          match os !! i with
          | Some o => Some (p, o)
          | None => None
          end
      | None => None
      end
  | None => None
  end.

(** Position [(a', i')] comes after position [(a, i)] in the order in which
    the two nested [forEach] visit the origins. *)
Definition laterThan (a i a' i' : nat) : Prop :=
  (a < a')%nat ∨ (a = a' ∧ (i < i')%nat).

(** No origin after position [(a, i)] yields the key [k]. *)
Definition lastToYield (items : list CFPool) (a i : nat) (k : string)
    : Prop :=
  ∀ a' i' p' o',
    originOf items a' i' = Some (p', o') → originKey p' o' i' = k →
    ¬ laterThan a i a' i'.

(** A pool with three unnamed origins at the same address: healthy, not
    healthy, healthy. *)
Definition triplePool : CFPool :=
  mkPool "pool-5"
    [mkOrigin None (Some "10.0.0.5") (Some true);
     mkOrigin None (Some "10.0.0.5") (Some false);
     mkOrigin None (Some "10.0.0.5") (Some true)].

(** A component that has polled before: its snapshot holds an origin that
    the next fetch will not contain, and the two keys of [pairPool] with
    other values. *)
Definition polledBefore : Dashboard :=
  {| pools := [newcomerPool]; loading := false; err := "";
     prevStatusRef :=
       {[ "pool-1/web-1" := Some true; "pool-4/web-1" := Some false;
          "pool-4/web-2" := None ]};
     firstLoadRef := false; audio := quietWorld |}.

(** * Properties *)

(** ** The diff pass *)

Lemma forEachFrom_app {A St : Type} (f : St → A → nat → St) i l1 l2 s :
  forEachFrom f i (l1 ++ l2) s
  = forEachFrom f (i + length l1) l2 (forEachFrom f i l1 s).
Proof.
  revert i s. induction l1 as [|x l1 IH]; intros i s; simpl.
  - by rewrite Nat.add_0_r.
  - rewrite IH. f_equal. lia.
Qed.

(** A callback that ignores the index. *)
Lemma forEachFrom_fold {A St : Type} (g : St → A → St) i l s :
  forEachFrom (λ s x _, g s x) i l s = fold_left g l s.
Proof. revert i s. induction l as [|x l IH]; intros i s; simpl; auto. Qed.

Lemma keyedFrom_app p i os1 os2 :
  keyedFrom p i (os1 ++ os2)
  = keyedFrom p i os1 ++ keyedFrom p (i + length os1) os2.
Proof.
  revert i. induction os1 as [|o os1 IH]; intros i; simpl.
  - by rewrite Nat.add_0_r.
  - rewrite IH. do 3 f_equal. lia.
Qed.

Lemma keyedFrom_lookup p i os j :
  keyedFrom p i os !! j
  = (λ o, (originKey p o (i + j), healthy o)) <$> os !! j.
Proof.
  revert i j. induction os as [|o os IH]; intros i [|j]; simpl; auto.
  - by rewrite Nat.add_0_r.
  - rewrite IH. destruct (os !! j); simpl; auto. do 3 f_equal. lia.
Qed.

Lemma keyedAll_app l1 l2 : keyedAll (l1 ++ l2) = keyedAll l1 ++ keyedAll l2.
Proof. unfold keyedAll. apply flat_map_app. Qed.

(** The per-origin step, on an invocation that is not the first. *)
Lemma visitOrigin_later prev p acc o idx :
  visitOrigin false prev p acc o idx
  = {| changes := changes acc
                  ++ transition (Map_get prev (originKey p o idx)) (healthy o);
       nextMap := Map_set (nextMap acc) (originKey p o idx) (healthy o) |}.
Proof.
  unfold visitOrigin, transition, strictNe, typeofBoolean. simpl.
  destruct (healthy o) as [b|]; simpl.
  - rewrite andb_true_r. case_bool_decide; simpl; auto. by rewrite app_nil_r.
  - rewrite andb_false_r. by rewrite app_nil_r.
Qed.

(** The per-origin step on the first invocation. *)
Lemma visitOrigin_first prev p acc o idx :
  visitOrigin true prev p acc o idx
  = {| changes := changes acc;
       nextMap := Map_set (nextMap acc) (originKey p o idx) (healthy o) |}.
Proof. reflexivity. Qed.

Lemma visitOrigins_later prev p os i acc :
  forEachFrom (visitOrigin false prev p) i os acc
  = {| changes := changes acc
                  ++ flat_map (λ kc, transition (Map_get prev kc.1) kc.2)
                              (keyedFrom p i os);
       nextMap := recordAll (keyedFrom p i os) (nextMap acc) |}.
Proof.
  revert i acc. induction os as [|o os IH]; intros i acc; simpl.
  - rewrite app_nil_r. by destruct acc.
  - rewrite IH, visitOrigin_later. simpl. by rewrite <- app_assoc.
Qed.

Lemma visitOrigins_first prev p os i acc :
  forEachFrom (visitOrigin true prev p) i os acc
  = {| changes := changes acc;
       nextMap := recordAll (keyedFrom p i os) (nextMap acc) |}.
Proof.
  revert i acc. induction os as [|o os IH]; intros i acc; simpl.
  - by destruct acc.
  - by rewrite IH, visitOrigin_first.
Qed.

Lemma recordAll_app l1 l2 m :
  recordAll (l1 ++ l2) m = recordAll l2 (recordAll l1 m).
Proof. unfold recordAll. apply fold_left_app. Qed.

Lemma visitPools_later prev items acc :
  fold_left (λ a p, visitPool false prev a p 0) items acc
  = {| changes := changes acc
                  ++ flat_map (λ kc, transition (Map_get prev kc.1) kc.2)
                              (keyedAll items);
       nextMap := recordAll (keyedAll items) (nextMap acc) |}.
Proof.
  revert acc. induction items as [|p items IH]; intros acc; simpl.
  - rewrite app_nil_r. by destruct acc.
  - rewrite IH. unfold visitPool, forEach. rewrite visitOrigins_later. simpl.
    rewrite flat_map_app, recordAll_app, <- app_assoc. reflexivity.
Qed.

Lemma visitPools_first prev items acc :
  fold_left (λ a p, visitPool true prev a p 0) items acc
  = {| changes := changes acc;
       nextMap := recordAll (keyedAll items) (nextMap acc) |}.
Proof.
  revert acc. induction items as [|p items IH]; intros acc; simpl.
  - by destruct acc.
  - rewrite IH. unfold visitPool, forEach. rewrite visitOrigins_first. simpl.
    by rewrite recordAll_app.
Qed.

Lemma diffPass_fold firstLoad prev items :
  diffPass firstLoad prev items
  = fold_left (λ a p, visitPool firstLoad prev a p 0) items diffStart.
Proof.
  unfold diffPass, forEach.
  change (visitPool firstLoad prev)
    with (λ (a : DiffAcc) (p : CFPool) (_ : nat),
            visitPool firstLoad prev a p 0).
  apply forEachFrom_fold.
Qed.

(** The pass on an invocation that is not the first. *)
Lemma diffPass_later prev items :
  diffPass false prev items
  = {| changes := flat_map (λ kc, transition (Map_get prev kc.1) kc.2)
                           (keyedAll items);
       nextMap := recordAll (keyedAll items) ∅ |}.
Proof. rewrite diffPass_fold. apply visitPools_later. Qed.

(** The pass on the first invocation. *)
Lemma diffPass_first prev items :
  diffPass true prev items
  = {| changes := []; nextMap := recordAll (keyedAll items) ∅ |}.
Proof. rewrite diffPass_fold. apply visitPools_first. Qed.

Lemma diffPass_nextMap firstLoad prev items :
  nextMap (diffPass firstLoad prev items) = recordAll (keyedAll items) ∅.
Proof.
  destruct firstLoad; [by rewrite diffPass_first | by rewrite diffPass_later].
Qed.

(** ** The snapshot written by the pass *)

Lemma recordAll_lookup_notin l m k :
  k ∉ l.*1 → recordAll l m !! k = m !! k.
Proof.
  revert m. induction l as [|[k' v'] l IH]; intros m Hk; simpl; auto.
  rewrite fmap_cons, not_elem_of_cons in Hk. destruct Hk as [Hne Hk].
  simpl in Hne. unfold recordAll in *. simpl. rewrite IH by done.
  unfold Map_set. simpl. by rewrite lookup_insert_ne.
Qed.

Lemma recordAll_lookup_last l1 l2 m k v :
  k ∉ l2.*1 → recordAll (l1 ++ (k, v) :: l2) m !! k = Some v.
Proof.
  intros Hk. rewrite recordAll_app.
  change (recordAll ((k, v) :: l2) (recordAll l1 m))
    with (recordAll l2 (Map_set (recordAll l1 m) k v)).
  rewrite recordAll_lookup_notin by done.
  unfold Map_set. apply lookup_insert_eq.
Qed.

(** Any key has a last write or none. *)
Lemma last_write (l : list (string * TriState)) k :
  k ∉ l.*1 ∨ ∃ l1 v l2, l = l1 ++ (k, v) :: l2 ∧ k ∉ l2.*1.
Proof.
  induction l as [|[k' v'] l IH].
  - left. set_solver.
  - destruct IH as [Hno | (l1 & v & l2 & -> & Hno)].
    + destruct (decide (k = k')) as [->|Hne].
      * right. exists [], v', l. auto.
      * left. rewrite fmap_cons, not_elem_of_cons. by split.
    + right. exists ((k', v') :: l1), v, l2. auto.
Qed.

Lemma recordAll_lookup_Some l k v :
  recordAll l ∅ !! k = Some v
  ↔ ∃ l1 l2, l = l1 ++ (k, v) :: l2 ∧ k ∉ l2.*1.
Proof.
  split.
  - intros H. destruct (last_write l k) as [Hno | (l1 & v' & l2 & -> & Hno)].
    + rewrite recordAll_lookup_notin in H by done. by rewrite lookup_empty in H.
    + rewrite recordAll_lookup_last in H by done. simplify_eq. eauto.
  - intros (l1 & l2 & -> & Hno). by apply recordAll_lookup_last.
Qed.

Lemma keyed_lookup p i o :
  originsOf p !! i = Some o →
  keyed p !! i = Some (originKey p o i, healthy o).
Proof. intros H. unfold keyed. by rewrite keyedFrom_lookup, H. Qed.

Lemma keyed_elem_of_keyedAll items p i o :
  p ∈ items → originsOf p !! i = Some o →
  (originKey p o i, healthy o) ∈ keyedAll items.
Proof.
  intros Hp Ho. unfold keyedAll. apply list_elem_of_In, in_flat_map.
  exists p. split; [by apply list_elem_of_In|].
  apply list_elem_of_In, list_elem_of_lookup. exists i. by apply keyed_lookup.
Qed.

(** C1 (as amended).  On an invocation that is not the first, the diff pass
    appends an event for an origin exactly when the origin's current health
    is a boolean and differs from the value previously recorded under its
    key, whether that value is a boolean or undefined: the events of the
    pass are, in visiting order, the [transition]s of the keyed origins
    against the previous snapshot, and a previous value of undefined with a
    boolean current value does produce an event. *)
Theorem diff_events_when_current_boolean_differs prev items :
  changes (diffPass false prev items)
  = flat_map (λ kc, transition (Map_get prev kc.1) kc.2) (keyedAll items)
  ∧ (∀ p acc o idx,
       changes (visitOrigin false prev p acc o idx)
       = changes acc
         ++ transition (Map_get prev (originKey p o idx)) (healthy o))
  ∧ (∀ pv, transition pv None = [])
  ∧ (∀ b, transition (Some b) (Some b) = [])
  ∧ (∀ b, transition (Some (negb b)) (Some b)
          = [if b then online else offline])
  ∧ (∀ b, transition None (Some b) = [if b then online else offline]).
Proof.
  split; [by rewrite diffPass_later|].
  split; [intros; by rewrite visitOrigin_later|].
  repeat split; by intros [].
Qed.

(** C1, counterexample to the claim as stated.  Nothing is recorded for the
    key (the previous value is undefined), the invocation is not the first,
    the origin is healthy: the pass emits an "online" event. *)
Lemma diff_event_from_undefined_previous :
  Map_get ∅ "pool-1/web-1" = None
  ∧ keyedAll [newcomerPool] = [("pool-1/web-1", Some true)]
  ∧ changes (diffPass false ∅ [newcomerPool]) = [online].
Proof. by vm_compute. Qed.

Lemma keyedFrom_elem_of p i os k v :
  (k, v) ∈ keyedFrom p i os →
  ∃ j o, os !! j = Some o ∧ k = originKey p o (i + j) ∧ v = healthy o.
Proof.
  intros [j Hj]%list_elem_of_lookup. rewrite keyedFrom_lookup in Hj.
  destruct (os !! j) as [o|] eqn:Ho; simplify_eq/=. eauto.
Qed.

Lemma keyedFrom_split p os j oj :
  os !! j = Some oj →
  keyedFrom p 0 os
  = keyedFrom p 0 (take j os)
    ++ (originKey p oj j, healthy oj) :: keyedFrom p (S j) (drop (S j) os).
Proof.
  intros Hj. rewrite <- (take_drop_middle os j oj Hj) at 1.
  rewrite keyedFrom_app. simpl.
  assert (length (take j os) = j) as ->.
  { rewrite length_take. apply lookup_lt_Some in Hj. lia. }
  reflexivity.
Qed.

Lemma keyedAll_elem_of items k v :
  (k, v) ∈ keyedAll items →
  ∃ p os i o,
    p ∈ items ∧ origins p = Some os ∧ os !! i = Some o
    ∧ originKey p o i = k ∧ healthy o = v.
Proof.
  unfold keyedAll. intros Hin%list_elem_of_In.
  apply in_flat_map in Hin as (p & Hp%list_elem_of_In & Hin%list_elem_of_In).
  unfold keyed in Hin.
  apply keyedFrom_elem_of in Hin as (i & o & Ho & -> & ->).
  unfold originsOf in Ho. destruct (origins p) as [os|] eqn:Hos; [|done].
  by exists p, os, i, o.
Qed.

(** C10 (as amended).  When two origins of one pool, at positions [i < j],
    yield the same key [k], and [j] is the last origin of the fetch to
    yield it (no later origin of the pool and no origin of a later pool
    does), the next snapshot holds the health of the origin at [j] under
    [k], whatever the origin at [i] wrote there, and the events of the pool
    are computed for both origins against the one value the previous
    snapshot holds under [k]. *)
Theorem duplicate_key_later_origin_wins firstLoad prev before p rest os
    i j oi oj k :
  origins p = Some os →
  os !! i = Some oi → os !! j = Some oj → (i < j)%nat →
  originKey p oi i = k → originKey p oj j = k →
  (∀ j' o',
     (j < j')%nat → os !! j' = Some o' → originKey p o' j' ≠ k) →
  (∀ q os' i' o',
     q ∈ rest → origins q = Some os' → os' !! i' = Some o' →
     originKey q o' i' ≠ k) →
  nextMap (diffPass firstLoad prev (before ++ p :: rest)) !! k
  = Some (healthy oj)
  ∧ keyed p !! i = Some (k, healthy oi)
  ∧ keyed p !! j = Some (k, healthy oj)
  ∧ changes (diffPass false prev (before ++ p :: rest))
    = changes (diffPass false prev before)
      ++ flat_map (λ kc, transition (Map_get prev kc.1) kc.2) (keyed p)
      ++ changes (diffPass false prev rest).
Proof.
  intros Hos Hi Hj Hlt Hki Hkj Hlast Hrest.
  assert (originsOf p = os) as Hof by (unfold originsOf; by rewrite Hos).
  assert (k ∉ (keyedAll rest).*1) as Hrest'.
  { intros ((k' & v) & Hk & Hin)%list_elem_of_fmap. simpl in Hk. subst k'.
    apply keyedAll_elem_of in Hin
      as (q & os' & i' & o' & Hq & Hos' & Ho' & Hk & _).
    by apply (Hrest q os' i' o'). }
  split; [|split; [|split]].
  - rewrite diffPass_nextMap, keyedAll_app. simpl.
    change (flat_map keyed rest) with (keyedAll rest).
    unfold keyed. rewrite Hof, (keyedFrom_split p os j oj Hj), Hkj.
    rewrite <- !app_assoc, app_assoc. simpl.
    apply recordAll_lookup_last.
    rewrite fmap_app, not_elem_of_app. split; [|done].
    intros ((k' & v) & Hk & Hin)%list_elem_of_fmap. simpl in Hk. subst k'.
    apply keyedFrom_elem_of in Hin as (j' & o' & Ho' & Hk' & _).
    rewrite lookup_drop in Ho'.
    apply (Hlast (S j + j')%nat o'); [lia|done|].
    by rewrite Hk'.
  - rewrite <- Hki. apply keyed_lookup. by rewrite Hof.
  - rewrite <- Hkj. apply keyed_lookup. by rewrite Hof.
  - rewrite !diffPass_later. simpl. rewrite keyedAll_app. simpl.
    by rewrite !flat_map_app.
Qed.

(** C10 on the pool with two origins at the same address, fetched between
    two other pools, with a snapshot that holds the shared key. *)
Lemma duplicate_key_later_origin_wins_witness :
  nextMap (diffPass false {[ "pool-2/10.0.0.1" := Some true ]}
             ([newcomerPool] ++ twinPool :: [pairPool]))
    !! "pool-2/10.0.0.1"
  = Some (Some false)
  ∧ keyed twinPool !! 0%nat = Some ("pool-2/10.0.0.1", Some true)
  ∧ keyed twinPool !! 1%nat = Some ("pool-2/10.0.0.1", Some false)
  ∧ changes (diffPass false {[ "pool-2/10.0.0.1" := Some true ]}
               ([newcomerPool] ++ twinPool :: [pairPool]))
    = changes (diffPass false {[ "pool-2/10.0.0.1" := Some true ]}
                 [newcomerPool])
      ++ flat_map
           (λ kc, transition
                    (Map_get {[ "pool-2/10.0.0.1" := Some true ]} kc.1)
                    kc.2)
           (keyed twinPool)
      ++ changes (diffPass false {[ "pool-2/10.0.0.1" := Some true ]}
                    [pairPool]).
Proof.
  apply (duplicate_key_later_origin_wins false
           {[ "pool-2/10.0.0.1" := Some true ]} [newcomerPool] twinPool
           [pairPool]
           [mkOrigin None (Some "10.0.0.1") (Some true);
            mkOrigin None (Some "10.0.0.1") (Some false)]
           0 1 (mkOrigin None (Some "10.0.0.1") (Some true))
           (mkOrigin None (Some "10.0.0.1") (Some false))
           "pool-2/10.0.0.1").
  - reflexivity.
  - reflexivity.
  - reflexivity.
  - lia.
  - reflexivity.
  - reflexivity.
  - intros [|[|[|j']]] o' Hlt Ho'; simpl in Ho'; try lia; discriminate.
  - intros q os' i' o' Hq Hos' Ho'.
    apply list_elem_of_singleton in Hq. subst q.
    injection Hos' as <-.
    destruct i' as [|[|i']]; simpl in Ho'; try discriminate;
      injection Ho' as <-; discriminate.
Defined.

(** C10, counterexample to the claim as stated.  The three origins of
    [triplePool] yield the same key; for the two at positions 0 and 1 the
    snapshot does not hold the health of the later one (position 1, not
    healthy) but that of the origin at position 2 (healthy). *)
Lemma duplicate_key_third_origin_wins :
  origins triplePool
  = Some [mkOrigin None (Some "10.0.0.5") (Some true);
          mkOrigin None (Some "10.0.0.5") (Some false);
          mkOrigin None (Some "10.0.0.5") (Some true)]
  ∧ originKey triplePool (mkOrigin None (Some "10.0.0.5") (Some true)) 0
    = "pool-5/10.0.0.5"
  ∧ originKey triplePool (mkOrigin None (Some "10.0.0.5") (Some false)) 1
    = "pool-5/10.0.0.5"
  ∧ nextMap (diffPass false ∅ [triplePool]) !! "pool-5/10.0.0.5"
    = Some (Some true)
  ∧ nextMap (diffPass false ∅ [triplePool]) !! "pool-5/10.0.0.5"
    ≠ Some (healthy (mkOrigin None (Some "10.0.0.5") (Some false))).
Proof. by vm_compute. Qed.

(** ** The cycle *)

Lemma finallyBlock_keeps alive st :
  pools (finallyBlock alive st) = pools st
  ∧ err (finallyBlock alive st) = err st
  ∧ prevStatusRef (finallyBlock alive st) = prevStatusRef st
  ∧ firstLoadRef (finallyBlock alive st) = firstLoadRef st
  ∧ audio (finallyBlock alive st) = audio st.
Proof. by destruct alive. Qed.

(** The refs and state after a cycle whose fetch succeeded while the effect
    was still alive. *)
Lemma loadSettled_success soundEnabled env items st :
  aliveAfterFetch env = true →
  let d := diffPass (firstLoadRef st) (prevStatusRef st) items in
  let r := loadSettled soundEnabled env (Returned items) st in
  emitted r = changes d
  ∧ prevStatusRef (after r) = nextMap d
  ∧ firstLoadRef (after r) = false
  ∧ audio (after r) = playSounds soundEnabled (changes d) (audio st)
  ∧ pools (after r) = items
  ∧ err (after r) = err st.
Proof.
  intros Halive d r. subst r d. unfold loadSettled. rewrite Halive.
  cbn [negb].
  match goal with |- context [finallyBlock ?a _] => destruct a end;
    simpl; repeat split; by destruct (firstLoadRef st).
Qed.

(** *** Origins by position and what the snapshot holds *)

Lemma originOf_Some items a i p o :
  originOf items a i = Some (p, o)
  ↔ items !! a = Some p
    ∧ ∃ os, origins p = Some os ∧ os !! i = Some o.
Proof.
  unfold originOf. split.
  - destruct (items !! a) as [p'|]; [|done].
    destruct (origins p') as [os|] eqn:Hos; [|done].
    destruct (os !! i) as [o'|] eqn:Ho; [|done].
    intros [= <- <-]. eauto.
  - intros (-> & os & -> & ->). done.
Qed.

Lemma originsOf_lookup p i o :
  originsOf p !! i = Some o
  ↔ ∃ os, origins p = Some os ∧ os !! i = Some o.
Proof.
  unfold originsOf. split.
  - destruct (origins p) as [os|]; [eauto|done].
  - by intros (os & -> & Ho).
Qed.

Lemma keyed_lookup_inv p i k v :
  keyed p !! i = Some (k, v) →
  ∃ o, originsOf p !! i = Some o ∧ originKey p o i = k ∧ healthy o = v.
Proof.
  unfold keyed. rewrite keyedFrom_lookup.
  destruct (originsOf p !! i) as [o|]; [|done].
  intros [= <- <-]. eauto.
Qed.

Lemma originOf_keyedAll items a i p o :
  originOf items a i = Some (p, o) →
  (originKey p o i, healthy o) ∈ keyedAll items.
Proof.
  intros (Hp & Ho)%originOf_Some.
  apply keyed_elem_of_keyedAll.
  - by apply list_elem_of_lookup_2 in Hp.
  - by apply originsOf_lookup.
Qed.

(** The value the pass leaves under a key is the health of the last
    origin of the fetch that yields the key. *)
Lemma recorded_value_position items k v :
  recordAll (keyedAll items) ∅ !! k = Some v →
  ∃ a i p o,
    originOf items a i = Some (p, o) ∧ originKey p o i = k
    ∧ healthy o = v ∧ lastToYield items a i k.
Proof.
  revert v. induction items as [|p items IH] using rev_ind; intros v H.
  - unfold keyedAll, recordAll in H. simpl in H.
    by rewrite lookup_empty in H.
  - rewrite keyedAll_app, recordAll_app in H.
    change (keyedAll [p]) with (keyed p ++ []) in H.
    rewrite app_nil_r in H.
    destruct (last_write (keyed p) k) as [Hno | (m1 & v' & m2 & Hk & Hno)].
    + rewrite recordAll_lookup_notin in H by done.
      destruct (IH v H) as (a & i & p0 & o & Ho & Hkey & Hv & Hlast).
      assert (a < length items)%nat as Ha.
      { apply originOf_Some in Ho as [Ho _]. by apply lookup_lt_Some in Ho. }
      exists a, i, p0, o. repeat split; try done.
      * apply originOf_Some in Ho as (Hp & Hos). apply originOf_Some.
        split; [|done]. by apply lookup_app_l_Some.
      * intros a' i' p' o' Ho' Hk' Hlater.
        apply originOf_Some in Ho' as (Hp' & os' & Hos' & Hoi').
        destruct (decide (a' < length items)%nat) as [Hlt|Hge].
        -- rewrite lookup_app_l in Hp' by done.
           apply (Hlast a' i' p' o'); [|done..].
           apply originOf_Some. eauto.
        -- pose proof (lookup_lt_Some _ _ _ Hp') as Hlen.
           rewrite length_app in Hlen. simpl in Hlen.
           assert (a' = length items) as -> by lia.
           rewrite lookup_app_r, Nat.sub_diag in Hp' by lia.
           simpl in Hp'. injection Hp' as <-.
           apply Hno, list_elem_of_fmap. exists (k, healthy o').
           split; [done|]. apply list_elem_of_lookup. exists i'.
           rewrite <- Hk'. apply keyed_lookup, originsOf_lookup. eauto.
    + rewrite Hk, recordAll_lookup_last in H by done. injection H as ->.
      assert (keyed p !! length m1 = Some (k, v)) as Hat.
      { rewrite Hk. by apply list_lookup_middle. }
      apply keyed_lookup_inv in Hat as (o & Ho & Hkey & Hv).
      apply originsOf_lookup in Ho as (os & Hos & Ho).
      exists (length items), (length m1), p, o. repeat split; try done.
      * apply originOf_Some. split; [by apply list_lookup_middle|eauto].
      * intros a' i' p' o' Ho' Hk' [Hlt | [<- Hlt]];
          apply originOf_Some in Ho' as (Hp' & os' & Hos' & Hoi').
        -- apply lookup_lt_Some in Hp'. rewrite length_app in Hp'.
           simpl in Hp'. lia.
        -- rewrite list_lookup_middle in Hp' by done. injection Hp' as <-.
           assert (keyed p !! i' = Some (k, healthy o')) as Hat'.
           { rewrite <- Hk'. apply keyed_lookup, originsOf_lookup. eauto. }
           rewrite Hk in Hat'.
           rewrite lookup_app_r in Hat' by lia.
           destruct (i' - length m1)%nat as [|n] eqn:Hn; [lia|].
           simpl in Hat'. apply Hno, list_elem_of_fmap.
           exists (k, healthy o'). split; [done|].
           apply list_elem_of_lookup. eauto.
Qed.

(** C8 (as amended).  After a cycle whose fetch succeeded, the snapshot
    holds nothing of the snapshot before: it is what the writes of the
    pass leave in an empty map.  Every origin of the fetch has its key in
    it; the value under a key is the current health, undefined included,
    of the last origin of the fetch that yields the key, which is the
    origin's own health whenever no later origin shares its key; and a key
    that no origin of the fetch yields is absent. *)
Theorem snapshot_replaced_after_success soundEnabled env items st :
  aliveAfterFetch env = true →
  let snap :=
    prevStatusRef (after (loadSettled soundEnabled env (Returned items) st)) in
  snap = recordAll (keyedAll items) ∅
  ∧ (∀ a i p o, originOf items a i = Some (p, o) →
                is_Some (snap !! originKey p o i))
  ∧ (∀ a i p o, originOf items a i = Some (p, o) →
                lastToYield items a i (originKey p o i) →
                snap !! originKey p o i = Some (healthy o))
  ∧ (∀ k v, snap !! k = Some v →
            ∃ a i p o,
              originOf items a i = Some (p, o) ∧ originKey p o i = k
              ∧ healthy o = v ∧ lastToYield items a i k)
  ∧ (∀ k, (∀ a i p o, originOf items a i = Some (p, o) →
                      originKey p o i ≠ k) →
          snap !! k = None).
Proof.
  intros Halive snap.
  assert (snap = recordAll (keyedAll items) ∅) as Hsnap.
  { subst snap.
    destruct (loadSettled_success soundEnabled env items st Halive)
      as (_ & -> & _).
    apply diffPass_nextMap. }
  split; [done|]. rewrite Hsnap.
  assert (∀ a i p o, originOf items a i = Some (p, o) →
            is_Some (recordAll (keyedAll items) ∅ !! originKey p o i))
    as Hpresent.
  { intros a i p o Ho.
    pose proof (originOf_keyedAll items a i p o Ho) as Hin.
    destruct (last_write (keyedAll items) (originKey p o i))
      as [Hno | (l1 & v & l2 & Heq & Hno)].
    - exfalso. apply Hno, list_elem_of_fmap. by eexists (_, _).
    - exists v. apply recordAll_lookup_Some. eauto. }
  split; [done|]. split; [|split].
  - intros a i p o Ho Hlast.
    destruct (Hpresent a i p o Ho) as [v Hv]. rewrite Hv. f_equal.
    destruct (recorded_value_position items _ v Hv)
      as (a' & i' & p' & o' & Ho' & Hk' & <- & Hlast').
    assert (a' = a ∧ i' = i) as [-> ->].
    { pose proof (Hlast a' i' p' o' Ho' Hk') as H1.
      pose proof (Hlast' a i p o Ho eq_refl) as H2.
      unfold laterThan in H1, H2. lia. }
    rewrite Ho in Ho'. by injection Ho' as _ <-.
  - intros k v Hv. by apply recorded_value_position.
  - intros k Hnone.
    destruct (recordAll (keyedAll items) ∅ !! k) as [v|] eqn:Hv; [|done].
    destruct (recorded_value_position items k v Hv)
      as (a & i & p & o & Ho & Hk & _).
    by destruct (Hnone a i p o Ho).
Qed.

(** C8 on a component that has polled before: the key of the origin that
    is gone is dropped, and the keys of [pairPool] hold the new values. *)
Lemma snapshot_replaced_after_success_witness :
  aliveAfterFetch aliveEnv = true
  ∧ prevStatusRef polledBefore !! "pool-1/web-1" = Some (Some true)
  ∧ prevStatusRef
      (after (loadSettled true aliveEnv (Returned [pairPool]) polledBefore))
      !! "pool-1/web-1" = None
  ∧ prevStatusRef
      (after (loadSettled true aliveEnv (Returned [pairPool]) polledBefore))
      !! "pool-4/web-1" = Some (Some true).
Proof.
  destruct (snapshot_replaced_after_success true aliveEnv [pairPool]
              polledBefore eq_refl)
    as (_ & _ & Hown & _ & Habsent).
  split; [reflexivity|]. split; [reflexivity|]. split.
  - apply Habsent. intros [|a] [|[|i]] p o Ho; try discriminate;
      injection Ho as <- <-; discriminate.
  - apply (Hown 0%nat 0%nat pairPool
             (mkOrigin (Some "web-1") None (Some true)) eq_refl).
    intros [|a'] [|[|i']] p' o' Ho' Hk' Hlater; try discriminate;
      try (injection Ho' as <- <-; discriminate);
      unfold laterThan in Hlater; lia.
Defined.

(** C8, counterexample to the claim as stated.  The first origin of
    [twinPool] is present in the fetch and healthy, but after the cycle the
    snapshot holds, under its key, the health of the second origin. *)
Lemma earlier_duplicate_value_not_recorded :
  originOf [twinPool] 0 0
  = Some (twinPool, mkOrigin None (Some "10.0.0.1") (Some true))
  ∧ prevStatusRef
      (after (loadSettled true aliveEnv (Returned [twinPool]) polledBefore))
      !! originKey twinPool (mkOrigin None (Some "10.0.0.1") (Some true)) 0
    = Some (Some false)
  ∧ prevStatusRef
      (after (loadSettled true aliveEnv (Returned [twinPool]) polledBefore))
      !! originKey twinPool (mkOrigin None (Some "10.0.0.1") (Some true)) 0
    ≠ Some (healthy (mkOrigin None (Some "10.0.0.1") (Some true))).
Proof. by vm_compute. Qed.

(** A cycle that starts with the first-load flag set. *)
Lemma flagged_cycle_silent soundEnabled env fetched snapshot st :
  let r := loadSettled soundEnabled env fetched (setRefs snapshot true st) in
  emitted r = []
  ∧ audio (after r) = audio st
  ∧ (∀ items, fetched = Returned items → aliveAfterFetch env = true →
       prevStatusRef (after r) = recordAll (keyedAll items) ∅
       ∧ firstLoadRef (after r) = false).
Proof.
  intros r.
  assert (emitted r = [] ∧ audio (after r) = audio st) as [He Ha].
  { subst r. destruct fetched as [items|e].
    - destruct (aliveAfterFetch env) eqn:Halive.
      + destruct (loadSettled_success soundEnabled env items
                    (setRefs snapshot true st) Halive)
          as (-> & _ & _ & -> & _).
        simpl. rewrite diffPass_first. simpl. split; [done|].
        unfold playSounds. simpl. by rewrite andb_false_r.
      + unfold loadSettled. by rewrite Halive.
    - unfold loadSettled.
      destruct (negb (aliveAfterFetch env) || isAbortError e); simpl;
        by rewrite (proj2 (proj2 (proj2 (proj2 (finallyBlock_keeps _ _))))). }
  split; [done|]. split; [done|].
  intros items -> Halive. subst r.
  destruct (loadSettled_success soundEnabled env items
              (setRefs snapshot true st) Halive)
    as (_ & -> & -> & _).
  split; [|done]. apply diffPass_nextMap.
Qed.

(** C5.  With the first-load flag set, whatever the snapshot holds and
    however the fetch ends, a cycle emits no event and leaves the audio
    context untouched; every activation sets the flag, so this is so for
    the first cycle after an activation; when the fetch succeeded the cycle
    still records the snapshot of the fetch and clears the flag, so that
    the next cycle can emit events (as the two polls of [soloPool] show). *)
Theorem first_cycle_emits_nothing soundEnabled env fetched snapshot st :
  let r := loadSettled soundEnabled env fetched (setRefs snapshot true st) in
  let r0 := loadSettled soundEnabled env fetched (activate st) in
  firstLoadRef (activate st) = true
  ∧ emitted r0 = [] ∧ audio (after r0) = audio st
  ∧ emitted r = [] ∧ audio (after r) = audio st
  ∧ (∀ items, fetched = Returned items → aliveAfterFetch env = true →
       prevStatusRef (after r) = recordAll (keyedAll items) ∅
       ∧ firstLoadRef (after r) = false
       ∧ prevStatusRef (after r0) = recordAll (keyedAll items) ∅
       ∧ firstLoadRef (after r0) = false)
  ∧ (let r1 := loadSettled true aliveEnv (Returned [soloPool (Some true)])
                 (activate mounted) in
     let r2 := loadSettled true aliveEnv (Returned [soloPool (Some false)])
                 (after r1) in
     emitted r1 = [] ∧ emitted r2 = [offline]).
Proof.
  intros r r0.
  destruct (flagged_cycle_silent soundEnabled env fetched snapshot st)
    as (He & Ha & Hrec).
  destruct (flagged_cycle_silent soundEnabled env fetched ∅
              (setErr "" (setLoading true st)))
    as (He0 & Ha0 & Hrec0).
  split; [done|]. repeat (split; [done|]). split.
  - intros items Hf Halive.
    destruct (Hrec items Hf Halive). destruct (Hrec0 items Hf Halive).
    done.
  - by vm_compute.
Qed.

(** C5 on the first poll of [soloPool]. *)
Lemma first_cycle_emits_nothing_witness :
  emitted (loadSettled true aliveEnv (Returned [soloPool (Some false)])
             (setRefs {[ "pool-3/db-1" := Some true ]} true mounted)) = []
  ∧ prevStatusRef
      (after (loadSettled true aliveEnv (Returned [soloPool (Some false)])
                (setRefs {[ "pool-3/db-1" := Some true ]} true mounted)))
    = recordAll (keyedAll [soloPool (Some false)]) ∅.
Proof.
  pose proof (first_cycle_emits_nothing true aliveEnv
                (Returned [soloPool (Some false)])
                {[ "pool-3/db-1" := Some true ]} mounted)
    as (_ & _ & _ & He & _ & Hrec & _).
  split; [exact He|].
  exact (proj1 (Hrec [soloPool (Some false)] eq_refl eq_refl)).
Defined.

(** A cycle that finds the effect torn down, or whose fetch was
    aborted. *)
Lemma loadSettled_cancelled soundEnabled env fetched st :
  aliveAfterFetch env = false
  ∨ (∃ e, fetched = Thrown e ∧ isAbortError e = true) →
  let r := loadSettled soundEnabled env fetched st in
  emitted r = []
  ∧ prevStatusRef (after r) = prevStatusRef st
  ∧ firstLoadRef (after r) = firstLoadRef st
  ∧ audio (after r) = audio st
  ∧ pools (after r) = pools st
  ∧ err (after r) = err st
  ∧ (aliveAfterFetch env = false → after r = st).
Proof.
  intros [Hdead | (e & -> & Habort)] r; subst r; unfold loadSettled.
  - rewrite Hdead. by destruct fetched.
  - rewrite Habort, orb_true_r.
    destruct (finallyBlock_keeps (aliveAfterFetch env) st)
      as (Hp & He & Hs & Hf & Ha).
    simpl. repeat split; try done.
    by intros ->.
Qed.

(** C7.  A cycle that finds the effect torn down when its fetch settles
    (however the fetch ended), or whose fetch rejected with an abort error,
    changes neither the snapshot nor the first-load flag, schedules no
    sound, and sets neither the pools nor the error message; the torn-down
    cycle changes nothing at all. *)
Theorem cancelled_cycle_changes_nothing soundEnabled env fetched st :
  aliveAfterFetch env = false
  ∨ (∃ e, fetched = Thrown e ∧ isAbortError e = true) →
  let r := loadSettled soundEnabled env fetched st in
  emitted r = []
  ∧ prevStatusRef (after r) = prevStatusRef st
  ∧ firstLoadRef (after r) = firstLoadRef st
  ∧ audio (after r) = audio st
  ∧ pools (after r) = pools st
  ∧ err (after r) = err st
  ∧ (aliveAfterFetch env = false → after r = st).
Proof. apply loadSettled_cancelled. Qed.

(** The same for a whole call of [load] whose first request is rejected
    with the abort error: the fetch settles, and the cycle changes none of
    these. *)
Lemma load_aborted_first_request fuel srv dev token accountId soundEnabled
    env st msg :
  srv [] (pageRequest dev token accountId 1%Z)
  = Thrown (abortException msg) →
  ∃ r, load (S fuel) srv dev token accountId soundEnabled env st = Some r
       ∧ emitted r = []
       ∧ prevStatusRef (after r) = prevStatusRef st
       ∧ audio (after r) = audio st
       ∧ pools (after r) = pools st
       ∧ err (after r) = err st.
Proof.
  intros Hsrv. unfold load, fetchAllPools. simpl. rewrite Hsrv.
  eexists. split; [reflexivity|]. simpl.
  destruct (loadSettled_cancelled soundEnabled env
              (Thrown (abortException msg)) st)
    as (? & ? & ? & ? & ? & ? & _); [|done].
  right. by exists (abortException msg).
Qed.

(** C7 on a fetch that succeeds after the teardown. *)
Lemma cancelled_cycle_changes_nothing_witness :
  (aliveAfterFetch {| aliveAfterFetch := false; aliveAtEnd := false |} = false
   ∨ ∃ e, Returned [soloPool (Some false)] = Thrown e
          ∧ isAbortError e = true)
  ∧ after (loadSettled true
             {| aliveAfterFetch := false; aliveAtEnd := false |}
             (Returned [soloPool (Some false)])
             (setRefs {[ "pool-3/db-1" := Some true ]} false mounted))
    = setRefs {[ "pool-3/db-1" := Some true ]} false mounted.
Proof.
  split; [by left|].
  apply (cancelled_cycle_changes_nothing true
           {| aliveAfterFetch := false; aliveAtEnd := false |}
           (Returned [soloPool (Some false)])
           (setRefs {[ "pool-3/db-1" := Some true ]} false mounted)).
  - by left.
  - reflexivity.
Defined.

(** The abort error of an aborted [fetch] is recognised as such. *)
Lemma abortException_isAbortError msg :
  isAbortError (abortException msg) = true.
Proof. reflexivity. Qed.

(** The errors [fetchAllPools] throws itself are not abort errors. *)
Lemma newError_not_abort msg : isAbortError (newError msg) = false.
Proof. reflexivity. Qed.

(** A cycle whose fetch succeeded never touches the error message. *)
Lemma loadSettled_Returned_err soundEnabled env items st :
  err (after (loadSettled soundEnabled env (Returned items) st)) = err st.
Proof.
  destruct (aliveAfterFetch env) eqn:Halive.
  - by destruct (loadSettled_success soundEnabled env items st Halive)
      as (_ & _ & _ & _ & _ & ->).
  - unfold loadSettled. by rewrite Halive.
Qed.

Lemma runCycles_app soundEnabled cs1 cs2 st :
  runCycles soundEnabled (cs1 ++ cs2) st
  = runCycles soundEnabled cs2 (runCycles soundEnabled cs1 st).
Proof. unfold runCycles. apply fold_left_app. Qed.

(** Nor does any run of such cycles. *)
Lemma runCycles_Returned_err soundEnabled cycles st :
  Forall (λ c : CycleEnv * Outcome (list CFPool),
            ∃ items, c.2 = Returned items) cycles →
  err (runCycles soundEnabled cycles st) = err st.
Proof.
  intros Hall. revert st.
  induction Hall as [|[env fetched] cycles [items Hc] _ IH]; intros st.
  - reflexivity.
  - simpl in Hc. subst fetched.
    change (runCycles soundEnabled ((env, Returned items) :: cycles) st)
      with (runCycles soundEnabled cycles
              (after (loadSettled soundEnabled env (Returned items) st))).
    by rewrite IH, loadSettled_Returned_err.
Qed.

(** A cycle that ran to its end with the effect alive has cleared the
    spinner. *)
Lemma loadSettled_success_loading soundEnabled env items st :
  aliveAfterFetch env = true → aliveAtEnd env = true →
  loading (after (loadSettled soundEnabled env (Returned items) st)) = false.
Proof.
  intros Ha He. unfold loadSettled. rewrite Ha, He. cbn [negb].
  by match goal with |- context [if ?c then true else true] => destruct c end.
Qed.

(** Whatever the cycle, the error message afterwards is the one before or
    the message of the error the fetch threw. *)
Lemma loadSettled_err_cases soundEnabled env fetched st :
  let st' := after (loadSettled soundEnabled env fetched st) in
  err st' = err st
  ∨ ∃ e, fetched = Thrown e ∧ isAbortError e = false
         ∧ err st' = errorMessage e.
Proof.
  destruct fetched as [items|e]; simpl.
  - left. apply loadSettled_Returned_err.
  - unfold loadSettled.
    destruct (aliveAfterFetch env), (isAbortError e) eqn:Habort; simpl; eauto.
Qed.

(** C9.  Once a failure that is not a cancellation has set a non-empty
    error message, cycles whose fetch succeeds leave it as it is: after any
    number of them the message is still the one of the failure, the pools
    are those of the last fetch, and what is shown is the error panel, not
    the table.  Only the next activation empties the message. *)
Theorem error_message_survives_success soundEnabled st e cycles env items :
  isAbortError e = false → errorMessage e ≠ "" →
  Forall (λ c : CycleEnv * Outcome (list CFPool),
            ∃ its, c.2 = Returned its) cycles →
  aliveAfterFetch env = true → aliveAtEnd env = true →
  let st1 := after (loadSettled soundEnabled aliveEnv (Thrown e) st) in
  let st2 :=
    runCycles soundEnabled (cycles ++ [(env, Returned items)]) st1 in
  err st1 = errorMessage e
  ∧ err st2 = errorMessage e
  ∧ pools st2 = items
  ∧ render st2 = [ErrorPanel (errorMessage e)]
  ∧ err (activate st2) = "".
Proof.
  intros Habort Hmsg Hall Ha He st1 st2.
  assert (err st1 = errorMessage e) as H1.
  { subst st1. unfold loadSettled. by rewrite Habort. }
  assert (err st2 = errorMessage e) as H2.
  { subst st2. rewrite runCycles_Returned_err; [done|].
    apply Forall_app. split; [done|].
    apply Forall_singleton. by exists items. }
  assert (st2 = after (loadSettled soundEnabled env (Returned items)
                         (runCycles soundEnabled cycles st1))) as Hst2.
  { subst st2. by rewrite runCycles_app. }
  assert (pools st2 = items) as H3.
  { rewrite Hst2.
    by destruct (loadSettled_success soundEnabled env items
                   (runCycles soundEnabled cycles st1) Ha)
      as (_ & _ & _ & _ & -> & _). }
  assert (loading st2 = false) as H4.
  { rewrite Hst2. by apply loadSettled_success_loading. }
  repeat split; try done.
  unfold render. rewrite H4, H2. simpl.
  by rewrite bool_decide_eq_false_2.
Qed.

(** C9 on a transport failure followed by two successful polls. *)
Lemma error_message_survives_success_witness :
  isAbortError networkFailure = false
  ∧ errorMessage networkFailure ≠ ""
  ∧ render
      (runCycles false
         ([(aliveEnv, Returned [soloPool (Some true)])]
          ++ [(aliveEnv, Returned [soloPool (Some false)])])
         (after (loadSettled false aliveEnv (Thrown networkFailure)
                   (activate mounted))))
    = [ErrorPanel (errorMessage networkFailure)].
Proof.
  split; [reflexivity|]. split; [discriminate|].
  apply (error_message_survives_success false (activate mounted)
           networkFailure [(aliveEnv, Returned [soloPool (Some true)])]
           aliveEnv [soloPool (Some false)]).
  - reflexivity.
  - discriminate.
  - apply Forall_singleton. by exists [soloPool (Some true)].
  - reflexivity.
  - reflexivity.
Defined.

(** ** The fetcher *)

Lemma append_nil_r (s : string) : s +:+ "" = s.
Proof.
  induction s as [|a s IH]; [reflexivity|].
  change (String a (s +:+ "") = String a s). by rewrite IH.
Qed.

Lemma append_assoc (s1 s2 s3 : string) :
  (s1 +:+ s2) +:+ s3 = s1 +:+ (s2 +:+ s3).
Proof.
  induction s1 as [|a s1 IH]; [reflexivity|].
  change (String a ((s1 +:+ s2) +:+ s3) = String a (s1 +:+ (s2 +:+ s3))).
  by rewrite IH.
Qed.

(** One iteration of the dashboard's loop on a page that succeeds: the page
    is appended, and the loop ends exactly when [page] has reached the page
    count the payload reports (1 when it reports none, or 0). *)
Lemma fetchLoop_page fuel srv dev token accountId page all sent res data
    items :
  srv sent (pageRequest dev token accountId page) = Returned res →
  ok res = true → json res = Returned data →
  success data = true → result data = Some items →
  fetchLoop (S fuel) srv dev token accountId page all sent
  = if bool_decide (page >= totalPagesOf data)%Z
    then Some {| requests := sent ++ [pageRequest dev token accountId page];
                 outcome := Returned (all ++ items) |}
    else fetchLoop fuel srv dev token accountId (page + 1)%Z (all ++ items)
           (sent ++ [pageRequest dev token accountId page]).
Proof.
  intros Hsrv Hok Hjson Hsucc Hres. simpl.
  by rewrite Hsrv, Hok, Hjson, Hsucc, Hres.
Qed.

Lemma totalPagesOf_reported data n :
  result_info data ≫= total_pages = Some n → n ≠ 0%Z →
  totalPagesOf data = n.
Proof.
  unfold totalPagesOf. intros H Hn.
  destruct (result_info data) as [info|]; simpl in H; [|done].
  rewrite H. by case_decide.
Qed.

Lemma totalPagesOf_omitted data :
  result_info data ≫= total_pages = None → totalPagesOf data = 1%Z.
Proof.
  unfold totalPagesOf. intros H.
  destruct (result_info data) as [info|]; simpl in H; [|done].
  by rewrite H.
Qed.

(** C3.  Against a server that succeeds on the requests for pages 1, 2 and
    3 and reports a page count of 3 on each, the fetcher issues exactly the
    three requests for pages 1, 2, 3, in that order and each with
    [per_page=50], and returns the three result arrays concatenated in
    that order.  Three units of fuel are enough. *)
Theorem three_pages_three_requests fuel srv dev token accountId r1 r2 r3 :
  let req := pageRequest dev token accountId in
  succeedsWith (srv [] (req 1%Z)) r1 (Some 3%Z) →
  succeedsWith (srv [req 1%Z] (req 2%Z)) r2 (Some 3%Z) →
  succeedsWith (srv [req 1%Z; req 2%Z] (req 3%Z)) r3 (Some 3%Z) →
  fetchAllPools (3 + fuel) srv dev token accountId
  = Some {| requests := [req 1%Z; req 2%Z; req 3%Z];
            outcome := Returned (r1 ++ r2 ++ r3) |}
  ∧ map url [req 1%Z; req 2%Z; req 3%Z]
    = map (λ n, CF_BASE dev +:+ "/accounts/" +:+ accountId
                +:+ "/load_balancers/pools?per_page=50&page=" +:+ n)
          ["1"; "2"; "3"].
Proof.
  intros req (res1 & d1 & Hs1 & Hok1 & Hj1 & Hsu1 & Hr1 & Ht1)
             (res2 & d2 & Hs2 & Hok2 & Hj2 & Hsu2 & Hr2 & Ht2)
             (res3 & d3 & Hs3 & Hok3 & Hj3 & Hsu3 & Hr3 & Ht3).
  split; [|reflexivity].
  unfold fetchAllPools. change (3 + fuel)%nat with (S (S (S fuel))).
  rewrite (fetchLoop_page _ _ _ _ _ _ _ _ _ _ _ Hs1 Hok1 Hj1 Hsu1 Hr1).
  rewrite (totalPagesOf_reported d1 3 Ht1) by done.
  rewrite bool_decide_eq_false_2 by lia.
  change (1 + 1)%Z with 2%Z. change ([] ++ [pageRequest dev token accountId 1])
    with [req 1%Z].
  rewrite (fetchLoop_page _ _ _ _ _ _ _ _ _ _ _ Hs2 Hok2 Hj2 Hsu2 Hr2).
  rewrite (totalPagesOf_reported d2 3 Ht2) by done.
  rewrite bool_decide_eq_false_2 by lia.
  change (2 + 1)%Z with 3%Z.
  change ([req 1%Z] ++ [pageRequest dev token accountId 2])
    with [req 1%Z; req 2%Z].
  rewrite (fetchLoop_page _ _ _ _ _ _ _ _ _ _ _ Hs3 Hok3 Hj3 Hsu3 Hr3).
  rewrite (totalPagesOf_reported d3 3 Ht3) by done.
  rewrite bool_decide_eq_true_2 by lia.
  simpl. by rewrite <- app_assoc.
Qed.

(** C3 on the server with three pages. *)
Lemma three_pages_three_requests_witness :
  fetchAllPools (3 + 0) threePageServer false "token" "0123456789"
  = Some {| requests := [pageRequest false "token" "0123456789" 1%Z;
                         pageRequest false "token" "0123456789" 2%Z;
                         pageRequest false "token" "0123456789" 3%Z];
            outcome := Returned ([newcomerPool] ++ [twinPool; newcomerPool]
                                 ++ [soloPool None]) |}.
Proof.
  apply (three_pages_three_requests 0 threePageServer false "token"
           "0123456789" [newcomerPool] [twinPool; newcomerPool]
           [soloPool None]);
    (eexists _, _; repeat split; reflexivity).
Defined.

(** C4.  When the first request resolves with a response that is not [ok],
    or with an [ok] response whose payload has [success: false], the
    fetcher throws after that one request: no request for a second page is
    issued, with any fuel.  For the response that is not [ok] and whose body
    can be read, the error is [HTTP <status>: <body>], which includes the
    status code and the body; for [success: false] it is the [API error]
    with the payload's errors. *)
Theorem failed_first_page_throws fuel srv dev token accountId res :
  srv [] (pageRequest dev token accountId 1%Z) = Returned res →
  ok res = false
  ∨ (∃ data, ok res = true ∧ json res = Returned data
             ∧ success data = false) →
  ∃ e,
    fetchAllPools (S fuel) srv dev token accountId
    = Some {| requests := [pageRequest dev token accountId 1%Z];
              outcome := Thrown e |}
    ∧ (ok res = false → ∀ body, text res = Returned body →
         e = newError ("HTTP " +:+ String_of_nat (status res)
                       +:+ ": " +:+ body)
         ∧ includes (String_of_nat (status res)) (message e)
         ∧ includes body (message e))
    ∧ (ok res = true → ∀ data, json res = Returned data →
         e = newError ("API error: " +:+ default "{}" (errors data))).
Proof.
  intros Hsrv [Hok | (data & Hok & Hjson & Hsucc)];
    unfold fetchAllPools; simpl; rewrite Hsrv, Hok; simpl.
  - destruct (text res) as [body|e] eqn:Htext.
    + eexists. split; [reflexivity|]. split; [|congruence].
      intros _ body' [= <-]. split; [reflexivity|]. split.
      * exists "HTTP ", (": " +:+ body). reflexivity.
      * exists ("HTTP " +:+ String_of_nat (status res) +:+ ": "), "".
        cbn [message newError].
        by rewrite append_nil_r, !append_assoc.
    + exists e. split; [reflexivity|]. split; [|congruence].
      intros _ body' [=].
  - rewrite Hjson, Hsucc. simpl.
    eexists. split; [reflexivity|]. split; [congruence|].
    by intros _ data' [= <-].
Qed.

(** C4 on a server that answers 403. *)
Lemma failed_first_page_throws_witness :
  forbiddenServer [] (pageRequest false "token" "0123456789" 1%Z)
  = Returned {| ok := false; status := 403; statusText := "Forbidden";
                text := Returned "Authentication error";
                json := Thrown networkFailure |}
  ∧ ∃ e,
      fetchAllPools 1 forbiddenServer false "token" "0123456789"
      = Some {| requests := [pageRequest false "token" "0123456789" 1%Z];
                outcome := Thrown e |}
      ∧ e = newError "HTTP 403: Authentication error".
Proof.
  split; [reflexivity|].
  destruct (failed_first_page_throws 0 forbiddenServer false "token"
              "0123456789"
              {| ok := false; status := 403; statusText := "Forbidden";
                 text := Returned "Authentication error";
                 json := Thrown networkFailure |}
              eq_refl (or_introl eq_refl))
    as (e & Hrun & Hmsg & _).
  exists e. split; [exact Hrun|].
  exact (proj1 (Hmsg eq_refl "Authentication error" eq_refl)).
Defined.

(** The dashboard's fetcher, when the page count is reported: it goes on
    to the next page exactly while [page] is below the reported count. *)
Lemma fetchLoop_reported fuel srv dev token accountId page all sent items n :
  succeedsWith (srv sent (pageRequest dev token accountId page)) items
    (Some n) →
  n ≠ 0%Z →
  fetchLoop (S fuel) srv dev token accountId page all sent
  = if bool_decide (page >= n)%Z
    then Some {| requests := sent ++ [pageRequest dev token accountId page];
                 outcome := Returned (all ++ items) |}
    else fetchLoop fuel srv dev token accountId (page + 1)%Z (all ++ items)
           (sent ++ [pageRequest dev token accountId page]).
Proof.
  intros (res & data & Hs & Hok & Hj & Hsu & Hr & Ht) Hn.
  rewrite (fetchLoop_page _ _ _ _ _ _ _ _ _ _ _ Hs Hok Hj Hsu Hr).
  by rewrite (totalPagesOf_reported data n Ht Hn).
Qed.

(** C2, what the dashboard's fetcher does when the page count is missing:
    whatever the size of the first page, it returns after the first
    request with that page alone. *)
Theorem missing_page_count_one_request fuel srv dev token accountId items :
  succeedsWith (srv [] (pageRequest dev token accountId 1%Z)) items None →
  fetchAllPools (S fuel) srv dev token accountId
  = Some {| requests := [pageRequest dev token accountId 1%Z];
            outcome := Returned items |}.
Proof.
  intros (res & data & Hs & Hok & Hj & Hsu & Hr & Ht).
  unfold fetchAllPools.
  rewrite (fetchLoop_page _ _ _ _ _ _ _ _ _ _ _ Hs Hok Hj Hsu Hr).
  rewrite (totalPagesOf_omitted data Ht). reflexivity.
Qed.

(** C2 on a server that omits the page count and whose first page is full
    (50 pools): one request, 50 pools, though a second page exists. *)
Lemma missing_page_count_one_request_witness :
  succeedsWith
    (omittingServer [] (pageRequest false "token" "0123456789" 1%Z))
    (replicate 50 newcomerPool) None
  ∧ length (replicate 50 newcomerPool) = 50%nat
  ∧ fetchAllPools 5 omittingServer false "token" "0123456789"
    = Some {| requests := [pageRequest false "token" "0123456789" 1%Z];
              outcome := Returned (replicate 50 newcomerPool) |}.
Proof.
  assert (succeedsWith
            (omittingServer [] (pageRequest false "token" "0123456789" 1%Z))
            (replicate 50 newcomerPool) None) as Hserved.
  { eexists _, _. repeat split; reflexivity. }
  split; [exact Hserved|]. split; [reflexivity|].
  exact (missing_page_count_one_request 4 omittingServer false "token"
           "0123456789" (replicate 50 newcomerPool) Hserved).
Defined.

(** One iteration of the single-file fetcher on a page that succeeds
    without a page count: it goes on exactly when the page is full. *)
Lemma SingleFile_fetchLoop_omitted fuel srv dev token accountId page all sent
    items :
  succeedsWith (srv sent (SingleFile.pageRequest dev token accountId)) items
    None →
  SingleFile.fetchLoop (S fuel) srv dev token accountId page all sent
  = if bool_decide (Z.of_nat (length items) < perPage)%Z
    then Some {| requests :=
                   sent ++ [SingleFile.pageRequest dev token accountId];
                 outcome := Returned (all ++ items) |}
    else SingleFile.fetchLoop fuel srv dev token accountId (page + 1)%Z
           (all ++ items)
           (sent ++ [SingleFile.pageRequest dev token accountId]).
Proof.
  intros (res & data & Hs & Hok & Hj & Hsu & Hr & Ht).
  simpl. rewrite Hs, Hok, Hj, Hsu, Hr. simpl.
  unfold SingleFile.totalPagesOf. rewrite Ht.
  destruct (bool_decide (Z.of_nat (length items) < perPage)%Z).
  - by rewrite bool_decide_eq_true_2 by lia.
  - by rewrite bool_decide_eq_false_2 by lia.
Qed.

(** Against the same server the single-file fetcher asks again after the
    full page and stops after the short one. *)
Lemma SingleFile_missing_page_count_two_requests :
  SingleFile.fetchAllPools 5 omittingServer false "token" "0123456789"
  = Some {| requests := [SingleFile.pageRequest false "token" "0123456789";
                         SingleFile.pageRequest false "token" "0123456789"];
            outcome := Returned (replicate 50 newcomerPool
                                 ++ replicate 3 twinPool) |}.
Proof. by vm_compute. Qed.

(** ** The sound block *)

Lemma resume_oscillators w :
  oscillators (ctx (snd (resume w))) = oscillators (ctx w).
Proof. reflexivity. Qed.

Lemma readCurrentTime_oscillators w :
  oscillators (ctx (snd (readCurrentTime w))) = oscillators (ctx w).
Proof. unfold readCurrentTime. by destruct (clockTape w). Qed.

(** [playBeep] starts one oscillator of the given wave form and frequency,
    whatever the state of the context and whether or not [resume]
    fulfils. *)
Lemma playBeep_shape freq durationMs type w :
  map shape (oscillators (ctx (playBeep freq durationMs type w)))
  = map shape (oscillators (ctx w)) ++ [(type, freq)].
Proof.
  unfold playBeep.
  set (w1 := match state (ctx w) with suspended => snd (resume w) | _ => w end).
  assert (oscillators (ctx w1) = oscillators (ctx w)) as <-.
  { subst w1. by destruct (state (ctx w)). }
  pose proof (readCurrentTime_oscillators w1) as Hread.
  destruct (readCurrentTime w1) as [now w2]. simpl in Hread.
  simpl. by rewrite map_app, Hread.
Qed.

Lemma concat_replicate_S {A : Type} n (c : list A) :
  concat (replicate (S n) c) = concat (replicate n c) ++ c.
Proof.
  induction n as [|n IH].
  - simpl. by rewrite app_nil_r.
  - change (c ++ concat (replicate (S n) c)
            = (c ++ concat (replicate n c)) ++ c).
    by rewrite IH, app_assoc.
Qed.

Lemma playOfflineSound_iter n w :
  map shape (oscillators (ctx (Nat.iter n playOfflineSound w)))
  = map shape (oscillators (ctx w)) ++ concat (replicate n offlineCue).
Proof.
  induction n as [|n IH].
  - simpl. by rewrite app_nil_r.
  - rewrite concat_replicate_S, app_assoc, <- IH.
    change (Nat.iter (S n) playOfflineSound w)
      with (playOfflineSound (Nat.iter n playOfflineSound w)).
    unfold playOfflineSound. apply playBeep_shape.
Qed.

Lemma playOnlineSound_iter n w :
  map shape (oscillators (ctx (Nat.iter n playOnlineSound w)))
  = map shape (oscillators (ctx w)) ++ concat (replicate n onlineCue).
Proof.
  induction n as [|n IH].
  - simpl. by rewrite app_nil_r.
  - rewrite concat_replicate_S, app_assoc, <- IH.
    change (Nat.iter (S n) playOnlineSound w)
      with (playOnlineSound (Nat.iter n playOnlineSound w)).
    unfold playOnlineSound. rewrite !playBeep_shape.
    by rewrite <- app_assoc.
Qed.

(** The order of the cues: with sound enabled, the block starts the tones
    of as many offline cues as there are "offline" events, then those of as
    many online cues as there are "online" events, wherever the events
    stood in [changes]. *)
Lemma playSounds_offline_first cs w :
  map shape (oscillators (ctx (playSounds true cs w)))
  = map shape (oscillators (ctx w))
    ++ concat (replicate (countOf offline cs) offlineCue)
    ++ concat (replicate (countOf online cs) onlineCue).
Proof.
  unfold playSounds. cbn [andb]. case_bool_decide as Hlen; cbn [negb].
  - apply length_zero_iff_nil in Hlen. subst cs. simpl. by rewrite app_nil_r.
  - rewrite playOnlineSound_iter, playOfflineSound_iter, resume_oscillators.
    by rewrite <- app_assoc.
Qed.

(** With sound disabled, or without events, nothing is started and
    [resume] is not called. *)
Lemma playSounds_silent soundEnabled cs w :
  soundEnabled = false ∨ cs = [] → playSounds soundEnabled cs w = w.
Proof.
  intros [-> | ->]; unfold playSounds; [done|]. simpl. by rewrite andb_false_r.
Qed.

(** C6, the sound block on the events [offline, online, offline].  The
    tones are started in the order offline, offline, online (two tones);
    but no call waits for its tone to end, so on a clock that stands still
    all four oscillators are scheduled from time 0 (to 0.22 s, 0.22 s,
    0.12 s and 0.1 s), and on a clock that advances 3 ms per reading each
    still starts long before the one before it stops: the playback is not
    serial. *)
Theorem cues_start_before_previous_ends :
  let played := oscillators (ctx (playSounds true [offline; online; offline]
                                    quietWorld)) in
  let ticking := oscillators (ctx (playSounds true [offline; online; offline]
                                     tickingWorld)) in
  map shape played
  = [(sawtooth, 300%Z); (sawtooth, 300%Z); (triangle, 880%Z);
     (triangle, 1320%Z)]
  ∧ Forall (λ o, startAt o == 0)%Q played
  ∧ Forall2 (λ o t, stopAt o == t)%Q played
      [22 # 100; 22 # 100; 12 # 100; 10 # 100]%Q
  ∧ ¬ serial played
  ∧ Forall2 (λ o t, startAt o == t)%Q ticking
      [0; 3 # 1000; 6 # 1000; 9 # 1000]%Q
  ∧ ¬ serial ticking.
Proof.
  vm_compute oscillators.
  split; [reflexivity|].
  split; [by repeat constructor|].
  split; [by repeat constructor|].
  split.
  - intros Hserial. by specialize (Hserial 0%nat _ _ eq_refl eq_refl).
  - split; [by repeat constructor|].
    intros Hserial. by specialize (Hserial 0%nat _ _ eq_refl eq_refl).
Qed.

(** * Further properties *)

(** ** The fetcher over several pages *)

Lemma pagesFrom_snoc page k :
  pagesFrom page (S k) = pagesFrom page k ++ [(page + Z.of_nat k)%Z].
Proof.
  revert page. induction k as [|k IH]; intros page.
  - simpl. by rewrite Z.add_0_r.
  - change (pagesFrom page (S (S k)))
      with (page :: pagesFrom (page + 1)%Z (S k)).
    rewrite IH. simpl. do 3 f_equal. lia.
Qed.

Lemma pagesFrom_length page k : length (pagesFrom page k) = k.
Proof. revert page. induction k as [|k IH]; intros page; simpl; auto. Qed.

(** One iteration on a page that reports more pages than [page]. *)
Lemma fetchLoop_continue fuel srv dev token accountId page all sent items n :
  succeedsWith (srv sent (pageRequest dev token accountId page)) items
    (Some n) →
  (1 ≤ page < n)%Z →
  fetchLoop (S fuel) srv dev token accountId page all sent
  = fetchLoop fuel srv dev token accountId (page + 1)%Z (all ++ items)
      (sent ++ [pageRequest dev token accountId page]).
Proof.
  intros Hs Hp. rewrite (fetchLoop_reported _ _ _ _ _ _ _ _ _ _ Hs) by lia.
  by rewrite bool_decide_eq_false_2 by lia.
Qed.

(** One iteration on a fetch that fails. *)
Lemma fetchLoop_failure fuel srv dev token accountId page all sent e :
  failureOf (srv sent (pageRequest dev token accountId page)) = Some e →
  fetchLoop (S fuel) srv dev token accountId page all sent
  = Some {| requests := sent ++ [pageRequest dev token accountId page];
            outcome := Thrown e |}.
Proof.
  simpl. unfold failureOf.
  destruct (srv sent (pageRequest dev token accountId page)) as [res|e'];
    [|by intros [= ->]].
  destruct (ok res); simpl.
  - destruct (json res) as [data|e']; [|by intros [= ->]].
    destruct (success data); simpl; [|by intros [= ->]].
    destruct (result data); [done|by intros [= ->]].
  - destruct (text res); by intros [= ->].
Qed.

(** [k] iterations over pages that each succeed and report more pages
    than their own number. *)
Lemma fetchLoop_pages srv dev token accountId itemss :
  ∀ fuel page all sent,
  (1 ≤ page)%Z →
  (∀ i items, itemss !! i = Some items →
     ∃ n, succeedsWith
            (srv (sent ++ map (pageRequest dev token accountId)
                            (pagesFrom page i))
                 (pageRequest dev token accountId (page + Z.of_nat i)%Z))
            items (Some n)
          ∧ (page + Z.of_nat i < n)%Z) →
  fetchLoop (length itemss + fuel) srv dev token accountId page all sent
  = fetchLoop fuel srv dev token accountId
      (page + Z.of_nat (length itemss))%Z (all ++ concat itemss)
      (sent ++ map (pageRequest dev token accountId)
                 (pagesFrom page (length itemss))).
Proof.
  induction itemss as [|items itemss IH]; intros fuel page all sent Hp Hall.
  - simpl. by rewrite Z.add_0_r, !app_nil_r.
  - destruct (Hall 0%nat items eq_refl) as (n & Hs & Hn).
    simpl in Hs. rewrite app_nil_r, Z.add_0_r in Hs.
    change (length (items :: itemss) + fuel)%nat
      with (S (length itemss + fuel)).
    rewrite (fetchLoop_continue _ _ _ _ _ _ _ _ _ n Hs) by lia.
    rewrite IH; [|lia|].
    + cbn [length concat pagesFrom map]. rewrite <- !app_assoc.
      f_equal. lia.
    + intros i its Hi. destruct (Hall (S i) its Hi) as (m & Hs' & Hm).
      exists m. split; [|lia].
      simpl in Hs'. rewrite <- app_assoc. simpl.
      by replace (page + 1 + Z.of_nat i)%Z with (page + Z.of_nat (S i))%Z
        by lia.
Qed.

(** X1.  Every run that settles has asked for the pages 1, 2, ..., n in this
    order and for nothing else, with one unit of fuel each: every request
    has [per_page=50] and the same [Authorization] header. *)
Theorem requests_are_consecutive_pages fuel srv dev token accountId run :
  fetchAllPools fuel srv dev token accountId = Some run →
  ∃ n, (1 ≤ n ≤ fuel)%nat
       ∧ requests run
         = map (pageRequest dev token accountId) (pagesFrom 1 n).
Proof.
  unfold fetchAllPools.
  cut (∀ fuel page all sent,
         fetchLoop fuel srv dev token accountId page all sent = Some run →
         ∃ n, (1 ≤ n ≤ fuel)%nat
              ∧ requests run
                = sent ++ map (pageRequest dev token accountId)
                            (pagesFrom page n)).
  { intros Hgen Hrun. apply (Hgen fuel 1%Z [] []), Hrun. }
  clear fuel. induction fuel as [|fuel IH]; intros page all sent; [done|].
  destruct (failureOf (srv sent (pageRequest dev token accountId page)))
    as [e|] eqn:Hfail.
  - rewrite (fetchLoop_failure _ _ _ _ _ _ _ _ e Hfail). intros [= <-].
    exists 1%nat. split; [lia|done].
  - unfold failureOf in Hfail.
    destruct (srv sent (pageRequest dev token accountId page))
      as [res|] eqn:Hsrv; [|done].
    destruct (ok res) eqn:Hok; simpl in Hfail;
      [|by destruct (text res)].
    destruct (json res) as [data|] eqn:Hjson; [|done].
    destruct (success data) eqn:Hsucc; simpl in Hfail; [|done].
    destruct (result data) as [items|] eqn:Hres; [|done].
    rewrite (fetchLoop_page _ _ _ _ _ _ _ _ _ _ _ Hsrv Hok Hjson Hsucc Hres).
    case_bool_decide.
    + intros [= <-]. exists 1%nat. split; [lia|done].
    + intros Hrun. apply IH in Hrun as (n & Hn & ->).
      exists (S n). split; [lia|]. by rewrite <- app_assoc.
Qed.

(** On the server with three pages. *)
Lemma requests_are_consecutive_pages_witness :
  ∃ n, (1 ≤ n ≤ 7)%nat
       ∧ [pageRequest false "token" "0123456789" 1%Z;
          pageRequest false "token" "0123456789" 2%Z;
          pageRequest false "token" "0123456789" 3%Z]
         = map (pageRequest false "token" "0123456789") (pagesFrom 1 n).
Proof.
  exact (requests_are_consecutive_pages 7 threePageServer false "token"
           "0123456789"
           {| requests := [pageRequest false "token" "0123456789" 1%Z;
                           pageRequest false "token" "0123456789" 2%Z;
                           pageRequest false "token" "0123456789" 3%Z];
              outcome := Returned ([newcomerPool] ++ [twinPool; newcomerPool]
                                   ++ [soloPool None]) |}
           eq_refl).
Defined.

(** X2.  Against a server that reports [n] pages on each of the pages 1 to [n]
    and succeeds on all of them, the fetcher issues exactly the requests for
    the pages 1 to [n] and returns the [n] result arrays concatenated in
    page order; [n] units of fuel are enough. *)
Theorem all_pages_fetched_in_order fuel srv dev token accountId itemss :
  itemss ≠ [] →
  (∀ i items, itemss !! i = Some items →
     succeedsWith
       (srv (map (pageRequest dev token accountId) (pagesFrom 1 i))
            (pageRequest dev token accountId (1 + Z.of_nat i)%Z))
       items (Some (Z.of_nat (length itemss)))) →
  fetchAllPools (length itemss + fuel) srv dev token accountId
  = Some {| requests := map (pageRequest dev token accountId)
                            (pagesFrom 1 (length itemss));
            outcome := Returned (concat itemss) |}.
Proof.
  intros Hne Hall.
  destruct (exists_last Hne) as (front & lastItems & ->).
  rewrite length_app in *. simpl in *.
  replace (length front + 1 + fuel)%nat with (length front + S fuel)%nat
    by lia.
  unfold fetchAllPools.
  rewrite (fetchLoop_pages srv dev token accountId front); [|lia|].
  - assert (succeedsWith
              (srv (map (pageRequest dev token accountId)
                      (pagesFrom 1 (length front)))
                 (pageRequest dev token accountId
                    (1 + Z.of_nat (length front))%Z))
              lastItems (Some (Z.of_nat (length front + 1)))) as Hlast.
    { apply Hall. rewrite lookup_app_r by lia.
      by rewrite Nat.sub_diag. }
    cbn [app]. rewrite (fetchLoop_reported _ _ _ _ _ _ _ _ _ _ Hlast) by lia.
    rewrite bool_decide_eq_true_2 by lia.
    rewrite concat_app. cbn [concat]. rewrite app_nil_r.
    replace (length front + 1)%nat with (S (length front)) by lia.
    by rewrite pagesFrom_snoc, map_app.
  - intros i items Hi. exists (Z.of_nat (length front + 1)). split.
    + apply Hall. by apply lookup_app_l_Some.
    + apply lookup_lt_Some in Hi. lia.
Qed.

(** On the server with three pages. *)
Lemma all_pages_fetched_in_order_witness :
  fetchAllPools
    (length [[newcomerPool]; [twinPool; newcomerPool]; [soloPool None]] + 2)
    threePageServer false "token" "0123456789"
  = Some {| requests :=
              map (pageRequest false "token" "0123456789")
                (pagesFrom 1 (length [[newcomerPool];
                                      [twinPool; newcomerPool];
                                      [soloPool None]]));
            outcome := Returned (concat [[newcomerPool];
                                         [twinPool; newcomerPool];
                                         [soloPool None]]) |}.
Proof.
  apply (all_pages_fetched_in_order 2 threePageServer false "token"
           "0123456789"
           [[newcomerPool]; [twinPool; newcomerPool]; [soloPool None]]).
  - discriminate.
  - intros [|[|[|i]]] items Hi; simpl in Hi; try discriminate;
      injection Hi as <-; (eexists _, _; repeat split; reflexivity).
Defined.

(** X3.  When the pages 1 to [k] succeed and announce further pages, and the
    fetch of page [k + 1] fails, the call throws the error of that fetch
    after exactly [k + 1] requests: the pools of the [k] pages already
    received are not returned. *)
Theorem failure_discards_fetched_pages fuel srv dev token accountId itemss e :
  (∀ i items, itemss !! i = Some items →
     ∃ n, succeedsWith
            (srv (map (pageRequest dev token accountId) (pagesFrom 1 i))
                 (pageRequest dev token accountId (1 + Z.of_nat i)%Z))
            items (Some n)
          ∧ (1 + Z.of_nat i < n)%Z) →
  failureOf
    (srv (map (pageRequest dev token accountId)
            (pagesFrom 1 (length itemss)))
         (pageRequest dev token accountId
            (1 + Z.of_nat (length itemss))%Z))
  = Some e →
  fetchAllPools (length itemss + S fuel) srv dev token accountId
  = Some {| requests := map (pageRequest dev token accountId)
                            (pagesFrom 1 (S (length itemss)));
            outcome := Thrown e |}.
Proof.
  intros Hall Hfail. unfold fetchAllPools.
  rewrite (fetchLoop_pages srv dev token accountId itemss); [|lia|done].
  cbn [app]. rewrite (fetchLoop_failure _ _ _ _ _ _ _ _ e Hfail).
  by rewrite pagesFrom_snoc, map_app.
Qed.

(** On a server whose third request is refused with status 403. *)
Lemma failure_discards_fetched_pages_witness :
  fetchAllPools (length [[newcomerPool]; [twinPool]] + 1) failingThirdServer
    false "token" "0123456789"
  = Some {| requests :=
              map (pageRequest false "token" "0123456789")
                (pagesFrom 1 (S (length [[newcomerPool]; [twinPool]])));
            outcome := Thrown (newError "HTTP 403: Authentication error") |}.
Proof.
  apply (failure_discards_fetched_pages 0 failingThirdServer false "token"
           "0123456789" [[newcomerPool]; [twinPool]]
           (newError "HTTP 403: Authentication error")).
  - intros [|[|i]] items Hi; simpl in Hi; try discriminate;
      injection Hi as <-; exists 3%Z;
      (split; [eexists _, _; repeat split; reflexivity | reflexivity]).
  - reflexivity.
Defined.

(** X4.  The loop has no bound of its own: against a server that answers every
    page with a page count above the page's number, the call never settles,
    whatever the fuel. *)
Theorem endless_pages_never_settle srv dev token accountId :
  (∀ i, ∃ items n,
     succeedsWith
       (srv (map (pageRequest dev token accountId) (pagesFrom 1 i))
            (pageRequest dev token accountId (1 + Z.of_nat i)%Z))
       items (Some n)
     ∧ (1 + Z.of_nat i < n)%Z) →
  ∀ fuel, fetchAllPools fuel srv dev token accountId = None.
Proof.
  intros Hall fuel. unfold fetchAllPools.
  cut (∀ i all,
         fetchLoop fuel srv dev token accountId (1 + Z.of_nat i)%Z all
           (map (pageRequest dev token accountId) (pagesFrom 1 i)) = None).
  { intros Hgen. apply (Hgen 0%nat []). }
  induction fuel as [|fuel IH]; intros i all; [done|].
  destruct (Hall i) as (items & n & Hs & Hn).
  rewrite (fetchLoop_continue _ _ _ _ _ _ _ _ _ n Hs) by lia.
  replace (1 + Z.of_nat i + 1)%Z with (1 + Z.of_nat (S i))%Z by lia.
  replace (map (pageRequest dev token accountId) (pagesFrom 1 i)
           ++ [pageRequest dev token accountId (1 + Z.of_nat i)%Z])
    with (map (pageRequest dev token accountId) (pagesFrom 1 (S i)))
    by (by rewrite pagesFrom_snoc, map_app).
  apply IH.
Qed.

(** On the server that always has one more page. *)
Lemma endless_pages_never_settle_witness :
  fetchAllPools 40 endlessServer false "token" "0123456789" = None.
Proof.
  apply (endless_pages_never_settle endlessServer false "token"
           "0123456789").
  intros i. exists [newcomerPool], (Z.of_nat i + 2)%Z. split; [|lia].
  eexists _, _. repeat split; try reflexivity.
  unfold endlessServer. by rewrite length_map, pagesFrom_length.
Defined.

(** X5.  A reported page count of 1, of 0 or below 0 ends the fetch after the
    first page. *)
Theorem page_count_at_most_one_single_request fuel srv dev token accountId
    items n :
  succeedsWith (srv [] (pageRequest dev token accountId 1%Z)) items
    (Some n) →
  (n ≤ 1)%Z →
  fetchAllPools (S fuel) srv dev token accountId
  = Some {| requests := [pageRequest dev token accountId 1%Z];
            outcome := Returned items |}.
Proof.
  intros (res & data & Hs & Hok & Hj & Hsu & Hr & Ht) Hn.
  unfold fetchAllPools.
  rewrite (fetchLoop_page _ _ _ _ _ _ _ _ _ _ _ Hs Hok Hj Hsu Hr).
  rewrite bool_decide_eq_true_2; [done|].
  destruct (decide (n = 0%Z)) as [->|Hne].
  - unfold totalPagesOf. destruct (result_info data); simpl in Ht; [|done].
    by rewrite Ht.
  - rewrite (totalPagesOf_reported data n Ht Hne). lia.
Qed.

(** On a server that reports a page count of 0. *)
Lemma page_count_at_most_one_single_request_witness :
  fetchAllPools 3 zeroPagesServer false "token" "0123456789"
  = Some {| requests := [pageRequest false "token" "0123456789" 1%Z];
            outcome := Returned [newcomerPool] |}.
Proof.
  apply (page_count_at_most_one_single_request 2 zeroPagesServer false
           "token" "0123456789" [newcomerPool] 0%Z).
  - eexists _, _. repeat split; reflexivity.
  - lia.
Defined.

(** ** The single-file fetcher *)

(** One iteration of the single-file fetcher on a page that reports its
    page count: the count is used as it is. *)
Lemma SingleFile_fetchLoop_reported fuel srv dev token accountId page all
    sent items n :
  succeedsWith (srv sent (SingleFile.pageRequest dev token accountId)) items
    (Some n) →
  SingleFile.fetchLoop (S fuel) srv dev token accountId page all sent
  = if bool_decide (page >= n)%Z
    then Some {| requests :=
                   sent ++ [SingleFile.pageRequest dev token accountId];
                 outcome := Returned (all ++ items) |}
    else SingleFile.fetchLoop fuel srv dev token accountId (page + 1)%Z
           (all ++ items)
           (sent ++ [SingleFile.pageRequest dev token accountId]).
Proof.
  intros (res & data & Hs & Hok & Hj & Hsu & Hr & Ht).
  simpl. rewrite Hs, Hok, Hj, Hsu, Hr. simpl.
  unfold SingleFile.totalPagesOf. by rewrite Ht.
Qed.

(** X6.  The single-file fetcher sends the same request every time.  Against
    a server whose answer depends on the request alone and reports [n]
    pages, it sends that request [n] times and returns the one page it
    gets, [n] times over. *)
Theorem SingleFile_repeats_the_same_page fuel f dev token accountId items n :
  succeedsWith (f (SingleFile.pageRequest dev token accountId)) items
    (Some (Z.of_nat n)) →
  (1 ≤ n)%nat →
  SingleFile.fetchAllPools (n + fuel) (statelessServer f) dev token accountId
  = Some {| requests :=
              replicate n (SingleFile.pageRequest dev token accountId);
            outcome := Returned (concat (replicate n items)) |}.
Proof.
  intros Hs Hn. unfold SingleFile.fetchAllPools.
  cut (∀ k page all sent,
         (page + Z.of_nat k = Z.of_nat n)%Z →
         SingleFile.fetchLoop (S k + fuel) (statelessServer f) dev token
           accountId page all sent
         = Some {| requests :=
                     sent ++ replicate (S k)
                               (SingleFile.pageRequest dev token accountId);
                   outcome :=
                     Returned (all ++ concat (replicate (S k) items)) |}).
  { intros Hgen. destruct n as [|n]; [lia|].
    apply (Hgen n 1%Z [] []). lia. }
  induction k as [|k IH]; intros page all sent Hk;
    change (S ?a + fuel)%nat with (S (a + fuel));
    rewrite (SingleFile_fetchLoop_reported _ (statelessServer f) _ _ _ _ _ _
               items (Z.of_nat n) Hs).
  - rewrite bool_decide_eq_true_2 by lia. simpl. by rewrite app_nil_r.
  - rewrite bool_decide_eq_false_2 by lia.
    rewrite IH by lia.
    cbn [replicate concat]. by rewrite <- !app_assoc.
Qed.

(** On a stateless server that reports two pages. *)
Lemma SingleFile_repeats_the_same_page_witness :
  SingleFile.fetchAllPools (2 + 0) twoPageStateless false "token"
    "0123456789"
  = Some {| requests :=
              replicate 2 (SingleFile.pageRequest false "token" "0123456789");
            outcome := Returned (concat (replicate 2 [newcomerPool])) |}.
Proof.
  apply (SingleFile_repeats_the_same_page 0
           (λ _, Returned (okResponse [newcomerPool]
                             (Some {| total_pages := Some 2%Z |})))
           false "token" "0123456789" [newcomerPool] 2).
  - eexists _, _. repeat split; reflexivity.
  - lia.
Defined.

(** X7.  Without a page count, a stateless server whose page is full (50 items
    or more) keeps the single-file fetcher asking for ever. *)
Theorem SingleFile_full_page_never_settles f dev token accountId items :
  succeedsWith (f (SingleFile.pageRequest dev token accountId)) items None →
  (50 ≤ length items)%nat →
  ∀ fuel,
    SingleFile.fetchAllPools fuel (statelessServer f) dev token accountId
    = None.
Proof.
  intros Hs Hlen fuel. unfold SingleFile.fetchAllPools.
  generalize 1%Z, (@nil CFPool), (@nil Request).
  induction fuel as [|fuel IH]; intros page all sent; [done|].
  rewrite (SingleFile_fetchLoop_omitted _ (statelessServer f) _ _ _ _ _ _
             items Hs).
  rewrite bool_decide_eq_false_2 by (unfold perPage; lia).
  apply IH.
Qed.

(** On a stateless server with a full page and no page count. *)
Lemma SingleFile_full_page_never_settles_witness :
  SingleFile.fetchAllPools 25 fullPageServer false "token" "0123456789"
  = None.
Proof.
  apply (SingleFile_full_page_never_settles
           (λ _, Returned (okResponse (replicate 50 newcomerPool) None))
           false "token" "0123456789" (replicate 50 newcomerPool)).
  - eexists _, _. repeat split; reflexivity.
  - rewrite length_replicate. lia.
Defined.

(** ** The differ over several polls *)

Lemma NoDup_keys_lookup (l : list (string * TriState)) k v :
  NoDup l.*1 → (k, v) ∈ l → recordAll l ∅ !! k = Some v.
Proof.
  intros Hnodup Hin. apply list_elem_of_split in Hin as (l1 & l2 & ->).
  apply recordAll_lookup_last.
  rewrite fmap_app, fmap_cons in Hnodup.
  apply NoDup_app in Hnodup as (_ & _ & Hnodup).
  by apply NoDup_cons in Hnodup as [Hnotin _].
Qed.

Lemma flat_map_ext_elem {A B : Type} (f g : A → list B) (l : list A) :
  (∀ x, x ∈ l → f x = g x) → flat_map f l = flat_map g l.
Proof.
  induction l as [|x l IH]; intros Hfg; simpl; [done|].
  rewrite (Hfg x) by apply list_elem_of_here.
  rewrite IH; [done|]. intros y Hy. apply Hfg. by apply list_elem_of_further.
Qed.

Lemma transition_same v : transition v v = [].
Proof. by destruct v as [[]|]. Qed.

(** X8.  When no two origins of a fetch share a key, a second poll that fetches
    the same pools emits no event: the differ is silent on unchanged
    data. *)
Theorem unchanged_fetch_emits_nothing soundEnabled env1 env2 items st :
  NoDup (keyedAll items).*1 →
  aliveAfterFetch env1 = true → aliveAfterFetch env2 = true →
  emitted
    (loadSettled soundEnabled env2 (Returned items)
       (after (loadSettled soundEnabled env1 (Returned items) st)))
  = [].
Proof.
  intros Hnodup H1 H2.
  destruct (loadSettled_success soundEnabled env1 items st H1)
    as (_ & Hsnap & Hflag & _).
  destruct (loadSettled_success soundEnabled env2 items
              (after (loadSettled soundEnabled env1 (Returned items) st)) H2)
    as (-> & _).
  rewrite Hsnap, Hflag, diffPass_nextMap, diffPass_later. simpl.
  revert Hnodup. generalize (keyedAll items). clear.
  induction l as [|[k v] l IH] using rev_ind; intros Hnodup; [done|].
  rewrite flat_map_app. simpl. rewrite app_nil_r.
  assert (Map_get (recordAll (l ++ [(k, v)]) ∅) k = v) as Hk.
  { unfold Map_get. by rewrite recordAll_lookup_last by apply not_elem_of_nil. }
  rewrite Hk, transition_same, app_nil_r.
  rewrite fmap_app in Hnodup. apply NoDup_app in Hnodup as (Hl & Hnotin & _).
  transitivity
    (flat_map (λ kc, transition (Map_get (recordAll l ∅) kc.1) kc.2) l);
    [|by apply IH].
  apply flat_map_ext_elem. intros [k' v'] Hin. simpl.
  f_equal. unfold Map_get.
  rewrite (NoDup_keys_lookup l k' v' Hl Hin).
  rewrite recordAll_app. simpl. unfold Map_set.
  rewrite lookup_insert_ne.
  - by rewrite (NoDup_keys_lookup l k' v' Hl Hin).
  - intros ->. apply (Hnotin k').
    + apply list_elem_of_fmap. by exists (k', v').
    + simpl. apply list_elem_of_here.
Qed.

(** On two polls of the pool with two named origins. *)
Lemma unchanged_fetch_emits_nothing_witness :
  emitted
    (loadSettled true aliveEnv (Returned [pairPool])
       (after (loadSettled true aliveEnv (Returned [pairPool]) mounted)))
  = [].
Proof.
  apply (unchanged_fetch_emits_nothing true aliveEnv aliveEnv [pairPool]
           mounted).
  - apply (bool_decide_unpack _). by vm_compute.
  - reflexivity.
  - reflexivity.
Defined.



(** ** The keys *)

Lemma append_cons a (s t : string) : String a s +:+ t = String a (s +:+ t).
Proof. reflexivity. Qed.

Lemma append_nil_l (s : string) : "" +:+ s = s.
Proof. reflexivity. Qed.

(** A string is cut in one way only at the first occurrence of a
    character. *)
Lemma first_occurrence_unique c (s1 s2 t1 t2 : string) :
  hasChar c s1 = false → hasChar c s2 = false →
  s1 +:+ String c t1 = s2 +:+ String c t2 → s1 = s2 ∧ t1 = t2.
Proof.
  revert s2. induction s1 as [|a s1 IH]; intros [|a' s2] H1 H2 Heq.
  - rewrite !append_nil_l in Heq. by simplify_eq.
  - rewrite append_nil_l, append_cons in Heq. simplify_eq.
    simpl in H2. by rewrite decide_True in H2.
  - rewrite append_nil_l, append_cons in Heq. simplify_eq.
    simpl in H1. by rewrite decide_True in H1.
  - rewrite !append_cons in Heq. simplify_eq.
    simpl in H1, H2. case_decide; [done|].
    destruct (IH s2 H1 H2) as [-> ->]; done.
Qed.

(** X10.  Origins of pools with different ids never share a key, as long as the
    ids contain no slash. *)
Theorem keys_of_different_pools_differ p q o o' i j :
  hasChar "/" (id p) = false → hasChar "/" (id q) = false →
  id p ≠ id q →
  originKey p o i ≠ originKey q o' j.
Proof.
  intros Hp Hq Hne Heq. apply Hne. unfold originKey in Heq.
  by destruct (first_occurrence_unique _ _ _ _ _ Hp Hq Heq).
Qed.

(** On two pools whose origins have the same name. *)
Lemma keys_of_different_pools_differ_witness :
  originKey newcomerPool (mkOrigin (Some "web-1") None None) 0
  ≠ originKey pairPool (mkOrigin (Some "web-1") None None) 0.
Proof.
  apply (keys_of_different_pools_differ newcomerPool pairPool).
  - reflexivity.
  - reflexivity.
  - discriminate.
Defined.

(** The key of an origin with a name or an address does not depend on
    the origin's position. *)
Lemma originKey_named p o i j :
  named o = true → originKey p o i = originKey p o j.
Proof.
  unfold named, originKey, orElse. intros H.
  destruct (name o) as [n|]; [case_decide; [|done]|];
    (destruct (address o) as [a|]; [case_decide; [|done]|]);
    by rewrite ?decide_True in H by done.
Qed.

Lemma keyedFrom_named p i os :
  Forall (λ o, named o = true) os →
  keyedFrom p i os = map (λ o, (originKey p o 0, healthy o)) os.
Proof.
  intros Hall. revert i. induction Hall as [|o os Ho _ IH]; intros i; simpl.
  - done.
  - by rewrite IH, (originKey_named p o i 0 Ho).
Qed.

Lemma recordAll_Permutation (l l' : list (string * TriState)) :
  l ≡ₚ l' → NoDup l.*1 → ∀ m, recordAll l m = recordAll l' m.
Proof.
  induction 1
    as [|[k v] l l' Hperm IH|[k1 v1] [k2 v2] l|l1 l2 l3 H12 IH12 H23 IH23];
    intros Hnodup m.
  - done.
  - apply NoDup_cons in Hnodup as [_ Hnodup].
    change (recordAll l (Map_set m k v) = recordAll l' (Map_set m k v)).
    by apply IH.
  - rewrite !fmap_cons in Hnodup. simpl in Hnodup.
    apply NoDup_cons in Hnodup as [Hne _].
    apply not_elem_of_cons in Hne as [Hne _].
    change (recordAll l (Map_set (Map_set m k2 v2) k1 v1)
            = recordAll l (Map_set (Map_set m k1 v1) k2 v2)).
    unfold Map_set. by rewrite insert_insert_ne.
  - rewrite IH12 by done. apply IH23.
    by rewrite <- H12.
Qed.

Lemma flat_map_Permutation {A B : Type} (f : A → list B) (l l' : list A) :
  l ≡ₚ l' → flat_map f l ≡ₚ flat_map f l'.
Proof.
  induction 1 as [|x l l' _ IH|x y l|l1 l2 l3 _ IH12 _ IH23]; simpl.
  - done.
  - by rewrite IH.
  - rewrite !app_assoc. f_equiv. apply Permutation_app_comm.
  - by rewrite IH12.
Qed.

(** X11.  Reordering the origins of a pool, when each has a name or an address
    and no two share a key, changes nothing for the differ: the snapshot
    recorded is the same, and the events are the same up to their order. *)
Theorem reordering_named_origins_is_harmless firstLoad prev before p rest
    os os' :
  origins p = Some os → os ≡ₚ os' →
  Forall (λ o, named o = true) os →
  NoDup (keyed p).*1 →
  nextMap (diffPass firstLoad prev (before ++ withOrigins p os' :: rest))
  = nextMap (diffPass firstLoad prev (before ++ p :: rest))
  ∧ changes (diffPass false prev (before ++ withOrigins p os' :: rest))
    ≡ₚ changes (diffPass false prev (before ++ p :: rest)).
Proof.
  intros Hos Hperm Hnamed Hnodup.
  assert (keyed p = map (λ o, (originKey p o 0, healthy o)) os) as Hk.
  { unfold keyed, originsOf. rewrite Hos. by apply keyedFrom_named. }
  assert (keyed (withOrigins p os')
          = map (λ o, (originKey p o 0, healthy o)) os') as Hk'.
  { unfold keyed, originsOf. simpl.
    rewrite keyedFrom_named by (by rewrite <- Hperm). reflexivity. }
  assert (keyed p ≡ₚ keyed (withOrigins p os')) as Hkperm.
  { rewrite Hk, Hk'. by apply Permutation_map. }
  split.
  - rewrite !diffPass_nextMap, !keyedAll_app. simpl.
    rewrite !recordAll_app. f_equal.
    symmetry. by apply recordAll_Permutation.
  - rewrite !diffPass_later. simpl. rewrite !keyedAll_app. simpl.
    rewrite !flat_map_app. f_equiv. f_equiv.
    symmetry. by apply flat_map_Permutation.
Qed.

(** On the pool with two named origins, swapped. *)
Lemma reordering_named_origins_is_harmless_witness :
  nextMap (diffPass false ∅
             ([] ++ withOrigins pairPool
                      [mkOrigin (Some "web-2") (Some "10.0.0.2") (Some false);
                       mkOrigin (Some "web-1") None (Some true)] :: []))
  = nextMap (diffPass false ∅ ([] ++ pairPool :: [])).
Proof.
  apply (reordering_named_origins_is_harmless false ∅ [] pairPool []
           [mkOrigin (Some "web-1") None (Some true);
            mkOrigin (Some "web-2") (Some "10.0.0.2") (Some false)]
           [mkOrigin (Some "web-2") (Some "10.0.0.2") (Some false);
            mkOrigin (Some "web-1") None (Some true)]).
  - reflexivity.
  - apply perm_swap.
  - by repeat constructor.
  - apply (bool_decide_unpack _). by vm_compute.
Defined.

(** X12.  Without a name and an address the key is the position: moving such an
    origin changes its key. *)
Theorem unnamed_origin_key_is_positional p o i j :
  named o = false → originKey p o i = originKey p o j → i = j.
Proof.
  unfold named, originKey, orElse. intros H Heq.
  assert (orElse (name o) (orElse (address o) "") = "") as Hempty.
  { apply negb_false_iff in H. by apply bool_decide_eq_true_1 in H. }
  unfold orElse in Hempty.
  assert (∀ s : string,
            match name o with
            | Some n => if decide (n = "") then
                          match address o with
                          | Some a => if decide (a = "") then s else a
                          | None => s
                          end
                        else n
            | None => match address o with
                      | Some a => if decide (a = "") then s else a
                      | None => s
                      end
            end = s) as Hs.
  { intros s. destruct (name o) as [n|], (address o) as [a|];
      repeat case_decide; subst; done. }
  rewrite !Hs in Heq.
  apply (inj (String.app (id p))) in Heq.
  apply (inj (String.app "/")) in Heq.
  by apply (inj pretty) in Heq.
Qed.

(** On an origin without name and address. *)
Lemma unnamed_origin_key_is_positional_witness :
  originKey newcomerPool (mkOrigin None None (Some true)) 3
  = originKey newcomerPool (mkOrigin None None (Some true)) 3
  ∧ 3%nat = 3%nat.
Proof.
  split; [reflexivity|].
  exact (unnamed_origin_key_is_positional newcomerPool
           (mkOrigin None None (Some true)) 3 3 eq_refl eq_refl).
Defined.

(** ** The cycle, further *)

(** X13.  With sound disabled no cycle touches the audio context: no [resume],
    no oscillator, whatever is fetched and whatever changed. *)
Theorem muted_cycles_leave_audio_untouched cycles st :
  audio (runCycles false cycles st) = audio st.
Proof.
  revert st. induction cycles as [|[env fetched] cycles IH]; intros st.
  - reflexivity.
  - change (runCycles false ((env, fetched) :: cycles) st)
      with (runCycles false cycles (after (loadSettled false env fetched st))).
    rewrite IH. unfold loadSettled.
    destruct fetched as [items|e].
    + by destruct (aliveAfterFetch env).
    + by destruct (aliveAfterFetch env), (isAbortError e).
Qed.

(** X14.  A cycle whose fetch failed leaves the snapshot, the first-load flag,
    the pools and the audio context as they were, so the next successful
    poll is compared with the last successful one: it emits what it would
    have emitted without the failure in between. *)
Theorem failed_cycle_is_invisible_to_the_differ soundEnabled env e st :
  let st' := after (loadSettled soundEnabled env (Thrown e) st) in
  prevStatusRef st' = prevStatusRef st
  ∧ firstLoadRef st' = firstLoadRef st
  ∧ pools st' = pools st
  ∧ audio st' = audio st
  ∧ ∀ sound env' items,
      emitted (loadSettled sound env' (Returned items) st')
      = emitted (loadSettled sound env' (Returned items) st).
Proof.
  intros st'.
  assert (prevStatusRef st' = prevStatusRef st
          ∧ firstLoadRef st' = firstLoadRef st
          ∧ pools st' = pools st ∧ audio st' = audio st)
    as (Hs & Hf & Hp & Ha).
  { subst st'. unfold loadSettled.
    destruct (negb (aliveAfterFetch env) || isAbortError e); simpl;
      destruct (finallyBlock_keeps (aliveAfterFetch env) st)
        as (? & ? & ? & ? & ?);
      destruct (finallyBlock_keeps (aliveAfterFetch env)
                  (setErr (errorMessage e) st))
        as (? & ? & ? & ? & ?); done. }
  repeat split; try done.
  intros sound env' items. unfold loadSettled.
  destruct (aliveAfterFetch env'); simpl; [|done].
  by rewrite Hs, Hf.
Qed.

(** X15.  When the first response of a cycle is not [ok], its body can be read
    and the effect is alive, the cycle ends with the message
    [HTTP <status>: <body>] as the error, the spinner off, pools and
    snapshot unchanged, and the error panel shown instead of the table. *)
Theorem http_failure_shows_the_error_panel fuel srv dev token accountId
    soundEnabled env st res body :
  srv [] (pageRequest dev token accountId 1%Z) = Returned res →
  ok res = false → text res = Returned body →
  aliveAfterFetch env = true →
  ∃ r,
    load (S fuel) srv dev token accountId soundEnabled env st = Some r
    ∧ err (after r)
      = "HTTP " +:+ String_of_nat (status res) +:+ ": " +:+ body
    ∧ loading (after r) = false
    ∧ pools (after r) = pools st
    ∧ prevStatusRef (after r) = prevStatusRef st
    ∧ render (after r) = [ErrorPanel (err (after r))].
Proof.
  intros Hsrv Hok Htext Halive. unfold load, fetchAllPools. simpl.
  rewrite Hsrv, Hok, Htext. simpl. eexists. split; [reflexivity|].
  unfold loadSettled. rewrite Halive. simpl.
  repeat split.
Qed.

(** On a server that answers 403. *)
Lemma http_failure_shows_the_error_panel_witness :
  ∃ r,
    load 1 forbiddenServer false "token" "0123456789" true aliveEnv mounted
    = Some r
    ∧ err (after r) = "HTTP 403: Authentication error".
Proof.
  destruct (http_failure_shows_the_error_panel 0 forbiddenServer false
              "token" "0123456789" true aliveEnv mounted
              {| ok := false; status := 403; statusText := "Forbidden";
                 text := Returned "Authentication error";
                 json := Thrown networkFailure |}
              "Authentication error" eq_refl eq_refl eq_refl eq_refl)
    as (r & Hr & Herr & _).
  exists r. split; [exact Hr|exact Herr].
Defined.

(** X16.  An activation shows the spinner and empties the error message.
    From then on, as long as the fetch of every cycle has succeeded, a
    cycle that ends with the effect alive shows the table with the pools
    it fetched, whatever error was displayed before the activation.  (After
    a failed cycle the error panel stays: see C9.) *)
Theorem first_success_after_activation_shows_table soundEnabled cycles env
    items st :
  Forall (λ c : CycleEnv * Outcome (list CFPool),
            ∃ its, c.2 = Returned its) cycles →
  aliveAfterFetch env = true → aliveAtEnd env = true →
  render (activate st) = [Spinner]
  ∧ err (activate st) = ""
  ∧ render (after (loadSettled soundEnabled env (Returned items)
                     (runCycles soundEnabled cycles (activate st))))
    = [PoolsTable items].
Proof.
  intros Hall Ha He. split; [done|]. split; [done|].
  pose proof (loadSettled_success_loading soundEnabled env items
                (runCycles soundEnabled cycles (activate st)) Ha He) as Hl.
  destruct (loadSettled_success soundEnabled env items
              (runCycles soundEnabled cycles (activate st)) Ha)
    as (_ & _ & _ & _ & Hp & Herr).
  rewrite (runCycles_Returned_err soundEnabled cycles (activate st) Hall)
    in Herr.
  unfold render. by rewrite Hl, Hp, Herr.
Qed.

(** On a component that showed an error before, with one successful cycle
    that was torn down between the activation and the cycle shown. *)
Lemma first_success_after_activation_shows_table_witness :
  render (after (loadSettled true aliveEnv (Returned [pairPool])
                   (runCycles true
                      [(tornDownWhileSounding, Returned [newcomerPool])]
                      (activate (setErr "HTTP 403: Authentication error"
                                   mounted)))))
  = [PoolsTable [pairPool]].
Proof.
  apply (first_success_after_activation_shows_table true
           [(tornDownWhileSounding, Returned [newcomerPool])]
           aliveEnv [pairPool]
           (setErr "HTTP 403: Authentication error" mounted)).
  - apply Forall_singleton. by exists [newcomerPool].
  - reflexivity.
  - reflexivity.
Defined.

(** X17.  A cycle that plays sounds and is torn down while they play still
    commits its results: the snapshot is swapped and [setPools] is called
    with the fetched pools after the teardown; only the spinner is left as
    it was. *)
Theorem teardown_while_sounding_still_sets_pools env items st :
  aliveAfterFetch env = true → aliveAtEnd env = false →
  changes (diffPass (firstLoadRef st) (prevStatusRef st) items) ≠ [] →
  let r := loadSettled true env (Returned items) st in
  pools (after r) = items
  ∧ prevStatusRef (after r) = recordAll (keyedAll items) ∅
  ∧ loading (after r) = loading st.
Proof.
  intros Ha He Hch r. subst r.
  destruct (loadSettled_success true env items st Ha)
    as (_ & Hs & _ & _ & Hp & _).
  split; [done|]. split; [by rewrite Hs, diffPass_nextMap|].
  unfold loadSettled. rewrite Ha, He. cbn [negb andb].
  rewrite bool_decide_eq_false_2; [done|].
  intros Hlen. by apply length_zero_iff_nil in Hlen.
Qed.

(** On an origin that went offline, with the teardown during the cue. *)
Lemma teardown_while_sounding_still_sets_pools_witness :
  pools (after (loadSettled true tornDownWhileSounding
                  (Returned [soloPool (Some false)])
                  (setRefs {[ "pool-3/db-1" := Some true ]} false mounted)))
  = [soloPool (Some false)].
Proof.
  apply (teardown_while_sounding_still_sets_pools tornDownWhileSounding
           [soloPool (Some false)]
           (setRefs {[ "pool-3/db-1" := Some true ]} false mounted)).
  - reflexivity.
  - reflexivity.
  - by vm_compute.
Defined.

(** ** The sound block, further *)

(** X18.  With sound enabled the block starts, after the oscillators already
    there, one offline tone per "offline" event and then the two online
    tones per "online" event, wherever the events stood in [changes]; this
    holds in every state of the context and whether or not [resume()]
    fulfils, so a failed [resume] never prevents the attempt to play.
    Every event is either "offline" or "online", so each gets its cue. *)
Theorem sound_block_starts_offline_cues_first cs w :
  map shape (oscillators (ctx (playSounds true cs w)))
  = map shape (oscillators (ctx w))
    ++ concat (replicate (countOf offline cs) offlineCue)
    ++ concat (replicate (countOf online cs) onlineCue)
  ∧ length (oscillators (ctx (playSounds true cs w)))
    = (length (oscillators (ctx w))
       + countOf offline cs + 2 * countOf online cs)%nat
  ∧ (countOf offline cs + countOf online cs)%nat = length cs.
Proof.
  assert ((countOf offline cs + countOf online cs)%nat = length cs) as Hcount.
  { unfold countOf. induction cs as [|[] cs IH]; simpl; [done|..];
      rewrite ?filter_cons_True, ?filter_cons_False by done; simpl; lia. }
  assert (map shape (oscillators (ctx (playSounds true cs w)))
          = map shape (oscillators (ctx w))
            ++ concat (replicate (countOf offline cs) offlineCue)
            ++ concat (replicate (countOf online cs) onlineCue)) as Hshape.
  { unfold playSounds. cbn [andb]. case_bool_decide as Hlen; cbn [negb].
    - apply length_zero_iff_nil in Hlen. subst cs. simpl.
      by rewrite app_nil_r.
    - rewrite playOnlineSound_iter, playOfflineSound_iter, resume_oscillators.
      by rewrite <- app_assoc. }
  split; [done|]. split; [|done].
  apply (f_equal length) in Hshape.
  rewrite !length_app, !length_map in Hshape. rewrite Hshape.
  assert (∀ n (c : list (OscillatorType * Z)),
            length (concat (replicate n c)) = (n * length c)%nat) as Hrep.
  { intros n c. induction n as [|n IH]; simpl; [done|].
    rewrite length_app, IH. lia. }
  rewrite !Hrep. simpl. lia.
Qed.

(** [playBeep] on a clock that stands still: the oscillator starts at the
    current time, stops [durationMs / 1000] seconds later, and the clock is
    where it was when the call returns. *)
Lemma playBeep_still freq durationMs type w :
  clockTape w = [] →
  clockTape (playBeep freq durationMs type w) = []
  ∧ currentTime (ctx (playBeep freq durationMs type w)) = currentTime (ctx w)
  ∧ oscillators (ctx (playBeep freq durationMs type w))
    = oscillators (ctx w)
      ++ [{| osc_type := type; frequency := freq; gain := 8 # 100;
             startAt := currentTime (ctx w);
             stopAt := currentTime (ctx w) + inject_Z durationMs / 1000 |}].
Proof.
  intros Htape. unfold playBeep.
  set (w1 := match state (ctx w) with suspended => snd (resume w) | _ => w end).
  assert (clockTape w1 = [] ∧ currentTime (ctx w1) = currentTime (ctx w)
          ∧ oscillators (ctx w1) = oscillators (ctx w)) as (Ht & Hc & Ho).
  { subst w1. by destruct (state (ctx w)). }
  unfold readCurrentTime. rewrite Ht. simpl. by rewrite Hc, Ho.
Qed.

(** Every tone lasts a positive time. *)
Lemma tone_lasts (t : Q) (durationMs : Z) :
  (0 < durationMs)%Z → (t < t + inject_Z durationMs / 1000)%Q.
Proof.
  intros Hd. rewrite <- (Qplus_0_r t) at 1. apply Qplus_lt_r.
  unfold Qlt, Qdiv, Qmult, inject_Z. simpl. lia.
Qed.

(** X19.  No call of the sound block waits for a tone to end: while the audio
    clock stands at [t], every oscillator the block starts is scheduled
    from [t] and stops later, so all the tones of one block sound at the
    same time, whatever the events. *)
Theorem still_clock_starts_all_tones_together cs w t :
  clockTape w = [] → currentTime (ctx w) = t → oscillators (ctx w) = [] →
  Forall (λ o, startAt o = t ∧ (t < stopAt o)%Q)
    (oscillators (ctx (playSounds true cs w))).
Proof.
  intros Htape Ht Hosc.
  set (inv := λ w' : AudioWorld,
         clockTape w' = [] ∧ currentTime (ctx w') = t
         ∧ Forall (λ o, startAt o = t ∧ (t < stopAt o)%Q)
             (oscillators (ctx w'))).
  assert (∀ freq d type w', (0 < d)%Z → inv w' →
            inv (playBeep freq d type w')) as Hbeep.
  { intros freq d type w' Hd (Hta & Hti & Hall).
    destruct (playBeep_still freq d type w' Hta) as (Hta' & Hti' & Ho').
    split; [done|]. split; [congruence|].
    rewrite Ho'. apply Forall_app. split; [done|].
    apply Forall_singleton. simpl. rewrite Hti.
    split; [done|]. by apply tone_lasts. }
  assert (∀ n w', inv w' → inv (Nat.iter n playOfflineSound w')) as Hoff.
  { intros n w' Hinv. induction n as [|n IH]; [done|].
    change (inv (playOfflineSound (Nat.iter n playOfflineSound w'))).
    unfold playOfflineSound. by apply Hbeep. }
  assert (∀ n w', inv w' → inv (Nat.iter n playOnlineSound w')) as Hon.
  { intros n w' Hinv. induction n as [|n IH]; [done|].
    change (inv (playOnlineSound (Nat.iter n playOnlineSound w'))).
    unfold playOnlineSound. apply Hbeep; [done|]. by apply Hbeep. }
  assert (inv w) as Hw.
  { split; [done|]. split; [done|]. rewrite Hosc. constructor. }
  assert (inv (playSounds true cs w)) as (_ & _ & Hall); [|done].
  unfold playSounds. cbn [andb]. destruct (negb _); [|done].
  apply Hon, Hoff.
  destruct Hw as (Hta & Hti & Hall). by repeat split.
Qed.

(** On the events [offline, online, offline]. *)
Lemma still_clock_starts_all_tones_together_witness :
  Forall (λ o, startAt o = 0%Q ∧ (0 < stopAt o)%Q)
    (oscillators (ctx (playSounds true [offline; online; offline]
                         quietWorld))).
Proof.
  apply (still_clock_starts_all_tones_together [offline; online; offline]
           quietWorld 0%Q); reflexivity.
Defined.

(** X20.  A context that stays suspended makes every [playBeep] try [resume]
    again, and the oscillator is started all the same. *)
Theorem suspended_context_retries_resume freq durationMs type w :
  state (ctx w) = suspended → hd true (resumeTape w) = false →
  let w' := playBeep freq durationMs type w in
  state (ctx w') = suspended
  ∧ resumeTape w' = tl (resumeTape w)
  ∧ map shape (oscillators (ctx w'))
    = map shape (oscillators (ctx w)) ++ [(type, freq)].
Proof.
  intros Hstate Hres w'. subst w'.
  split; [|split; [|apply playBeep_shape]];
    unfold playBeep, resume, readCurrentTime;
    rewrite Hstate, Hres; simpl;
    by destruct (clockTape w).
Qed.

(** On a context whose [resume()] never fulfils. *)
Lemma suspended_context_retries_resume_witness :
  state (ctx (playBeep 300 220 sawtooth stuckWorld)) = suspended
  ∧ resumeTape (playBeep 300 220 sawtooth stuckWorld)
    = tl (resumeTape stuckWorld)
  ∧ map shape (oscillators (ctx (playBeep 300 220 sawtooth stuckWorld)))
    = map shape (oscillators (ctx stuckWorld)) ++ [(sawtooth, 300%Z)].
Proof.
  apply (suspended_context_retries_resume 300 220 sawtooth stuckWorld);
    reflexivity.
Defined.

(** ** Strings: [trim], [split], [startsWith] *)

Lemma length_append (s t : string) :
  String.length (s +:+ t) = (String.length s + String.length t)%nat.
Proof.
  induction s as [|a s IH]; [done|].
  rewrite append_cons. simpl. by rewrite IH.
Qed.

Lemma hasChar_append c (s t : string) :
  hasChar c (s +:+ t) = hasChar c s || hasChar c t.
Proof.
  induction s as [|a s IH]; [done|].
  rewrite append_cons. simpl. by case_decide.
Qed.

Lemma trimStart_length s :
  (String.length (trimStart s) ≤ String.length s)%nat.
Proof.
  induction s as [|c s IH]; simpl; [lia|].
  destruct (isWhiteSpace c); simpl; lia.
Qed.

Lemma trimEnd_length s : (String.length (trimEnd s) ≤ String.length s)%nat.
Proof.
  induction s as [|c s IH]; simpl; [lia|].
  destruct (isWhiteSpace c && bool_decide (trimEnd s = "")); simpl; lia.
Qed.

(** What [trimStart] leaves is empty or begins with a code unit that is
    not white space. *)
Lemma trimStart_head s :
  trimStart s = ""
  ∨ ∃ c s', trimStart s = String c s' ∧ isWhiteSpace c = false.
Proof.
  induction s as [|c s IH]; simpl; [by left|].
  destruct (isWhiteSpace c) eqn:Hc; [done|]. right. eauto.
Qed.

Lemma trimStart_fixed s :
  String.length (trimStart s) = String.length s → trimStart s = s.
Proof.
  destruct s as [|c s]; simpl; [done|].
  destruct (isWhiteSpace c); [|done].
  pose proof (trimStart_length s). lia.
Qed.

Lemma trimEnd_idempotent s : trimEnd (trimEnd s) = trimEnd s.
Proof.
  induction s as [|c s IH]; simpl; [done|].
  destruct (isWhiteSpace c && bool_decide (trimEnd s = "")) eqn:Hc; [done|].
  simpl. by rewrite IH, Hc.
Qed.

Lemma trimEnd_keeps_head c s :
  isWhiteSpace c = false → trimEnd (String c s) = String c (trimEnd s).
Proof. intros Hc. simpl. by rewrite Hc. Qed.

(** [trim] is idempotent. *)
Lemma trim_idempotent s : trim (trim s) = trim s.
Proof.
  unfold trim. destruct (trimStart_head s) as [->|(c & s' & -> & Hc)].
  - done.
  - rewrite (trimEnd_keeps_head c s' Hc). simpl. rewrite Hc.
    rewrite <- (trimEnd_keeps_head c s' Hc). apply trimEnd_idempotent.
Qed.

(** White space at the end does not survive [trimEnd]. *)
Lemma trimEnd_padding pad : trimStart pad = "" → trimEnd pad = "".
Proof.
  induction pad as [|c pad IH]; simpl; [done|].
  destruct (isWhiteSpace c); [|done].
  intros H. rewrite (IH H). simpl. done.
Qed.

Lemma trimEnd_append_padding s pad :
  trimStart pad = "" → trimEnd (s +:+ pad) = trimEnd s.
Proof.
  intros Hpad. induction s as [|c s IH].
  - rewrite append_nil_l. by apply trimEnd_padding.
  - rewrite append_cons. simpl. by rewrite IH.
Qed.

(** A string that [trim] leaves alone keeps itself when white space is
    added behind it. *)
Lemma trim_append_padding core pad :
  trim core = core → trimStart pad = "" → trim (core +:+ pad) = core.
Proof.
  intros Hcore Hpad.
  assert (trimStart core = core) as Hstart.
  { apply trimStart_fixed.
    pose proof (trimStart_length core).
    pose proof (trimEnd_length (trimStart core)).
    unfold trim in Hcore. rewrite Hcore in *. lia. }
  unfold trim in *. rewrite Hstart in Hcore.
  destruct core as [|c core].
  - rewrite append_nil_l, Hpad. done.
  - simpl in Hstart. destruct (isWhiteSpace c) eqn:Hc.
    + pose proof (trimStart_length core) as Hlen.
      rewrite Hstart in Hlen. simpl in Hlen. lia.
    + rewrite append_cons. simpl. rewrite Hc.
      rewrite <- append_cons, trimEnd_append_padding by done. done.
Qed.

Lemma prefix_append (p t : string) : String.prefix p (p +:+ t) = true.
Proof.
  induction p as [|a p IH]; [by destruct t|].
  rewrite append_cons. simpl. by destruct (ascii_dec a a).
Qed.

Lemma prefix_inv (p s : string) :
  String.prefix p s = true → ∃ t, s = p +:+ t.
Proof.
  revert s. induction p as [|a p IH]; intros s H.
  - by exists s.
  - destruct s as [|b s]; [done|]. simpl in H.
    destruct (ascii_dec a b) as [->|]; [|done].
    destruct (IH s H) as [t ->]. by exists t.
Qed.

Lemma splitFrom_skip sep (passed rest acc : string) :
  splitFrom sep (String.length passed) (passed +:+ rest) acc
  = splitFrom sep 0 rest acc.
Proof.
  induction passed as [|a passed IH]; [done|].
  rewrite append_cons. simpl. apply IH.
Qed.

(** A piece without the first code unit of the separator, followed by the
    separator. *)
Lemma splitFrom_piece c sep' (r rest acc : string) :
  hasChar c r = false →
  splitFrom (String c sep') 0 (r +:+ String c sep' +:+ rest) acc
  = (acc +:+ r) :: splitFrom (String c sep') 0 rest "".
Proof.
  revert acc. induction r as [|a r IH]; intros acc Hr.
  - rewrite append_nil_l, append_nil_r, append_cons.
    cbn [splitFrom]. rewrite <- append_cons, prefix_append.
    replace (String.length (String c sep') - 1)%nat
      with (String.length sep') by (simpl; lia).
    by rewrite splitFrom_skip.
  - simpl in Hr. case_decide as Hac; [done|].
    rewrite append_cons. cbn [splitFrom String.prefix].
    destruct (ascii_dec c a) as [->|_]; [done|].
    rewrite (IH _ Hr). by rewrite append_assoc.
Qed.

(** The last piece. *)
Lemma splitFrom_last c sep' (r acc : string) :
  hasChar c r = false →
  splitFrom (String c sep') 0 r acc = [acc +:+ r].
Proof.
  revert acc. induction r as [|a r IH]; intros acc Hr.
  - by rewrite append_nil_r.
  - simpl in Hr. case_decide as Hac; [done|].
    cbn [splitFrom String.prefix].
    destruct (ascii_dec c a) as [->|_]; [done|].
    rewrite (IH _ Hr). by rewrite append_assoc.
Qed.

(** [document.cookie] splits back into its cookies. *)
Lemma split_cookieString jar :
  wellFormedJar jar → jar ≠ [] →
  split "; " (cookieString jar) = map (λ nv, nv.1 +:+ "=" +:+ nv.2) jar.
Proof.
  intros Hwf Hne. induction Hwf as [|[n v] rest (Hn & _ & Hv) Hrest IH];
    [done|].
  simpl in Hn, Hv.
  assert (hasChar ";" (n +:+ "=" +:+ v) = false) as Hrow.
  { rewrite !hasChar_append, Hn, Hv. done. }
  destruct rest as [|nv rest].
  - simpl. unfold split. by rewrite (splitFrom_last _ _ _ _ Hrow).
  - change (cookieString ((n, v) :: nv :: rest))
      with (n +:+ "=" +:+ v +:+ "; " +:+ cookieString (nv :: rest)).
    unfold split.
    replace (n +:+ "=" +:+ v +:+ "; " +:+ cookieString (nv :: rest))
      with ((n +:+ "=" +:+ v) +:+ "; " +:+ cookieString (nv :: rest))
      by (by rewrite !append_assoc).
    rewrite (splitFrom_piece _ _ _ _ _ Hrow).
    fold (split "; " (cookieString (nv :: rest))). by rewrite IH.
Qed.

(** A cookie starts with [name=] exactly when its name is [name]. *)
Lemma prefix_cookie_name cookieName n v :
  hasChar "=" cookieName = false → hasChar "=" n = false →
  String.prefix (cookieName +:+ "=") (n +:+ "=" +:+ v)
  = bool_decide (n = cookieName).
Proof.
  intros Hname Hn. case_bool_decide as Heq.
  - subst n. rewrite <- append_assoc. apply prefix_append.
  - apply not_true_is_false. intros [t Ht]%prefix_inv.
    rewrite append_assoc in Ht.
    by destruct (first_occurrence_unique _ _ _ _ _ Hn Hname Ht).
Qed.

(** [split] never returns an empty array. *)
Lemma splitFrom_nonempty sep skip s acc :
  ∃ piece pieces, splitFrom sep skip s acc = piece :: pieces.
Proof.
  revert skip acc. induction s as [|c s IH]; intros skip acc.
  - by exists acc, [].
  - cbn [splitFrom]. destruct skip as [|skip]; [|apply IH].
    destruct (String.prefix sep (String c s)); [eauto|apply IH].
Qed.

Lemma split_name_value n v :
  hasChar "=" n = false →
  split "=" (n +:+ "=" +:+ v) !! 1%nat = Some (upToEquals v).
Proof.
  intros Hn. unfold split, upToEquals.
  rewrite (splitFrom_piece _ _ _ _ _ Hn).
  unfold split.
  by destruct (splitFrom_nonempty "=" 0 v "") as (piece & pieces & ->).
Qed.

(** [getCookie] on a well-formed jar: the first cookie of that name, cut at
    its first equals sign. *)
Lemma getCookie_cookieString jar cookieName :
  wellFormedJar jar → hasChar "=" cookieName = false →
  getCookie (cookieString jar) cookieName
  = upToEquals <$> firstCookie cookieName jar.
Proof.
  intros Hwf Hname. unfold getCookie.
  destruct (decide (jar = [])) as [->|Hne]; [by destruct cookieName|].
  rewrite split_cookieString by done. clear Hne.
  induction Hwf as [|[n v] rest (Hsemi & Hn & Hv) Hrest IH]; [done|].
  simpl in Hn. cbn [map find firstCookie fst snd].
  rewrite (prefix_cookie_name cookieName n v Hname Hn).
  case_bool_decide as Heq.
  - rewrite decide_True by done. simpl. by apply split_name_value.
  - rewrite decide_False by done. apply IH.
Qed.

Lemma upToEquals_plain v : hasChar "=" v = false → upToEquals v = v.
Proof.
  intros Hv. unfold upToEquals, split.
  by rewrite (splitFrom_last _ _ _ _ Hv).
Qed.

Lemma upToEquals_cut a b :
  hasChar "=" a = false → upToEquals (a +:+ "=" +:+ b) = a.
Proof.
  intros Ha. unfold upToEquals, split.
  by rewrite (splitFrom_piece _ _ _ _ _ Ha).
Qed.

(** ** The credentials form *)

(** X21.  What [submit] lets through: [onSave] is called exactly when both
    fields hold more than white space and the account id, as typed, has at
    least 10 code units.  The credentials handed over are the trimmed
    fields: neither is empty, and trimming them again changes nothing.  When
    [onSave] is not called the form shows one of its two messages. *)
Theorem submit_hands_over_trimmed_credentials f :
  match submit f with
  | (f', Some c) =>
      token c = trim (form_token f)
      ∧ accountId c = trim (form_accountId f)
      ∧ token c ≠ "" ∧ accountId c ≠ ""
      ∧ trim (token c) = token c ∧ trim (accountId c) = accountId c
      ∧ (10 ≤ String.length (form_accountId f))%nat
      ∧ form_err f' = ""
  | (f', None) =>
      (trim (form_token f) = "" ∨ trim (form_accountId f) = ""
       ∨ (String.length (form_accountId f) < 10)%nat)
      ∧ (form_err f' = "Both fields are required"
         ∨ form_err f' = "Account ID looks too short.")
  end.
Proof.
  unfold submit.
  destruct (bool_decide (trim (form_token f) = "")) eqn:Ht;
    [apply bool_decide_eq_true_1 in Ht; simpl; auto|].
  destruct (bool_decide (trim (form_accountId f) = "")) eqn:Ha;
    [apply bool_decide_eq_true_1 in Ha; simpl; auto|].
  apply bool_decide_eq_false_1 in Ht, Ha. simpl.
  case_bool_decide as Hlen; simpl; [auto|].
  rewrite !trim_idempotent. repeat split; try done. lia.
Qed.

(** X22.  The length of the account id is checked before it is trimmed: an
    account id of any length passes when white space behind it brings the
    field to 10 code units, and what is saved is the short id. *)
Theorem padded_account_id_passes_the_length_check tok core pad e :
  trim tok ≠ "" → trim core = core → core ≠ "" →
  trimStart pad = "" →
  (10 ≤ String.length core + String.length pad)%nat →
  (submit {| form_token := tok; form_accountId := core +:+ pad;
             form_err := e |}).2
  = Some {| token := trim tok; accountId := core |}.
Proof.
  intros Htok Hcore Hne Hpad Hlen. unfold submit. simpl.
  rewrite (trim_append_padding core pad Hcore Hpad).
  rewrite !bool_decide_eq_false_2 by done. simpl.
  rewrite bool_decide_eq_false_2; [done|].
  rewrite length_append. lia.
Qed.

(** On an account id of three characters and seven spaces. *)
Lemma padded_account_id_passes_the_length_check_witness :
  (submit paddedForm).2 = Some {| token := trim "secret"; accountId := "abc" |}
  ∧ String.length "abc" = 3%nat.
Proof.
  split; [|reflexivity].
  apply (padded_account_id_passes_the_length_check "secret" "abc"
           "       " "").
  - discriminate.
  - reflexivity.
  - discriminate.
  - reflexivity.
  - simpl. lia.
Defined.

(** ** The application shell *)

Lemma submit_accepts_nonempty f f' c :
  submit f = (f', Some c) → token c ≠ "" ∧ accountId c ≠ "".
Proof.
  unfold submit.
  destruct (bool_decide (trim (form_token f) = "")) eqn:Ht; [done|].
  destruct (bool_decide (trim (form_accountId f) = "")) eqn:Ha; [done|].
  apply bool_decide_eq_false_1 in Ht, Ha. simpl.
  case_bool_decide; [done|]. by intros [= _ <-].
Qed.

(** X23.  Whatever [submit] hands to [onSave] opens the dashboard with exactly
    those credentials, after two assignments to [document.cookie], one per
    credential; a logout after that shows the empty form again. *)
Theorem accepted_credentials_open_the_dashboard expires f f' c a :
  submit f = (f', Some c) →
  appView (handleSave expires c a) = DashboardView (token c) (accountId c)
  ∧ cookieWrites (handleSave expires c a)
    = cookieWrites a
      ++ ["cf_api_token=" +:+ token c +:+ "; expires=" +:+ expires
          +:+ "; path=/;";
          "cf_account_id=" +:+ accountId c +:+ "; expires=" +:+ expires
          +:+ "; path=/;"]
  ∧ appView (handleLogout (handleSave expires c a))
    = CredentialsFormView "" "".
Proof.
  intros Hsub. pose proof (submit_accepts_nonempty f f' c Hsub) as [Ht Ha].
  split; [|split; [|done]].
  - unfold appView, haveCreds. simpl.
    by rewrite !bool_decide_eq_false_2 by done.
  - unfold handleSave, setCreds, setCookie. simpl.
    by rewrite <- app_assoc.
Qed.

(** On a form that is accepted. *)
Lemma accepted_credentials_open_the_dashboard_witness :
  appView (handleSave "Fri, 01 Jan 2027 00:00:00 GMT"
             {| token := "secret"; accountId := "abc" |}
             (initialApp ""))
  = DashboardView "secret" "abc".
Proof.
  apply (accepted_credentials_open_the_dashboard
           "Fri, 01 Jan 2027 00:00:00 GMT" paddedForm
           {| form_token := "secret"; form_accountId := "abc       ";
              form_err := "" |}
           {| token := "secret"; accountId := "abc" |} (initialApp "")).
  reflexivity.
Defined.

(** ** Reading the cookies *)

(** X24.  On the value of [document.cookie] for a well-formed jar, [getCookie]
    finds the first cookie of the name asked for and returns its value up
    to the first equals sign: [undefined] when there is no such cookie, the
    whole value when the value holds no equals sign. *)
Theorem getCookie_reads_the_first_cookie jar cookieName :
  wellFormedJar jar → hasChar "=" cookieName = false →
  getCookie (cookieString jar) cookieName
  = upToEquals <$> firstCookie cookieName jar
  ∧ (firstCookie cookieName jar = None →
     getCookie (cookieString jar) cookieName = None)
  ∧ (∀ v, firstCookie cookieName jar = Some v → hasChar "=" v = false →
          getCookie (cookieString jar) cookieName = Some v).
Proof.
  intros Hwf Hname.
  rewrite (getCookie_cookieString jar cookieName Hwf Hname).
  split; [done|]. split.
  - by intros ->.
  - intros v -> Hv. simpl. by rewrite upToEquals_plain.
Qed.

(** On a jar with three cookies. *)
Lemma getCookie_reads_the_first_cookie_witness :
  getCookie (cookieString sampleJar) "cf_account_id"
  = upToEquals <$> firstCookie "cf_account_id" sampleJar
  ∧ getCookie "theme=dark; cf_api_token=secret; cf_account_id=0123456789"
      "cf_account_id" = Some "0123456789".
Proof.
  split; [|reflexivity].
  refine (proj1 (getCookie_reads_the_first_cookie sampleJar "cf_account_id"
                   _ eq_refl)).
  by repeat constructor.
Defined.

(** X25.  A value that holds an equals sign does not come back whole:
    [getCookie] returns only what stands before the sign, since it takes
    the second piece of [split("=")]. *)
Theorem getCookie_cuts_the_value_at_equals jar cookieName before behind :
  wellFormedJar jar → hasChar "=" cookieName = false →
  firstCookie cookieName jar = Some (before +:+ "=" +:+ behind) →
  hasChar "=" before = false →
  getCookie (cookieString jar) cookieName = Some before.
Proof.
  intros Hwf Hname Hfirst Hbefore.
  rewrite (getCookie_cookieString jar cookieName Hwf Hname), Hfirst.
  simpl. by rewrite upToEquals_cut.
Qed.

(** On a token that ends in two equals signs. *)
Lemma getCookie_cuts_the_value_at_equals_witness :
  getCookie (cookieString paddedTokenJar) "cf_api_token" = Some "c2VjcmV0".
Proof.
  apply (getCookie_cuts_the_value_at_equals paddedTokenJar "cf_api_token"
           "c2VjcmV0" "=").
  - by repeat constructor.
  - reflexivity.
  - reflexivity.
  - reflexivity.
Defined.

(** X26.  When the jar holds a token and an account id that are not empty and
    hold no equals sign, the application starts on the dashboard with
    them; when either cookie is missing it starts on the form. *)
Theorem stored_credentials_open_the_dashboard jar tok acct :
  wellFormedJar jar →
  (firstCookie "cf_api_token" jar = Some tok →
   firstCookie "cf_account_id" jar = Some acct →
   hasChar "=" tok = false → hasChar "=" acct = false →
   tok ≠ "" → acct ≠ "" →
   appView (initialApp (cookieString jar)) = DashboardView tok acct)
  ∧ (firstCookie "cf_api_token" jar = None
     ∨ firstCookie "cf_account_id" jar = None →
     haveCreds (initialApp (cookieString jar)) = false).
Proof.
  intros Hwf. unfold appView, haveCreds, initialApp. simpl.
  rewrite !(getCookie_cookieString jar _ Hwf) by done.
  split.
  - intros -> -> Ht Ha Htne Hane. simpl.
    rewrite !upToEquals_plain by done.
    by rewrite !bool_decide_eq_false_2 by done.
  - intros [-> | ->]; simpl; [done|]. by rewrite andb_false_r.
Qed.

(** On the jar with three cookies. *)
Lemma stored_credentials_open_the_dashboard_witness :
  appView (initialApp (cookieString sampleJar))
  = DashboardView "secret" "0123456789".
Proof.
  apply (stored_credentials_open_the_dashboard sampleJar "secret"
           "0123456789"); try reflexivity; try discriminate.
  by repeat constructor.
Defined.

(** ** The pools table *)

Lemma pretty_N_char_no_dash x s :
  hasChar "-" (String (pretty_N_char x) s) = hasChar "-" s.
Proof. unfold pretty_N_char. by repeat case_match. Qed.

Lemma pretty_N_go_no_dash x s :
  hasChar "-" s = false → hasChar "-" (pretty_N_go x s) = false.
Proof.
  revert s. induction (N.lt_wf_0 x) as [x _ IH]; intros s Hs.
  assert (x = 0 ∨ 0 < x)%N as [->|Hx] by lia.
  - by rewrite pretty_N_go_0.
  - rewrite pretty_N_go_step by done. apply IH.
    + by apply N.div_lt.
    + by rewrite pretty_N_char_no_dash.
Qed.

(** The decimal form of an index holds no dash. *)
Lemma String_of_index_no_dash i : hasChar "-" (String_of_index i) = false.
Proof.
  unfold String_of_index, pretty, pretty_nat, pretty, pretty_N.
  case_decide; [done|]. by apply pretty_N_go_no_dash.
Qed.

(** A string is cut in one way only at the last occurrence of a
    character. *)
Lemma last_occurrence_unique c (s1 s2 t1 t2 : string) :
  hasChar c t1 = false → hasChar c t2 = false →
  s1 +:+ String c t1 = s2 +:+ String c t2 → t1 = t2.
Proof.
  intros H1 H2. revert s2.
  induction s1 as [|a s1 IH]; intros [|b s2] Heq.
  - rewrite !append_nil_l in Heq. by simplify_eq.
  - rewrite append_nil_l, append_cons in Heq. simplify_eq.
    rewrite hasChar_append in H1. simpl in H1.
    rewrite decide_True in H1 by done. by rewrite orb_true_r in H1.
  - rewrite append_nil_l, append_cons in Heq. simplify_eq.
    rewrite hasChar_append in H2. simpl in H2.
    rewrite decide_True in H2 by done. by rewrite orb_true_r in H2.
  - rewrite !append_cons in Heq. simplify_eq. by apply (IH s2).
Qed.

(** X27.  The React keys of the origin rows of a pool are pairwise different,
    whatever the names and addresses of the origins: rows at different
    positions never share a key, even where the differ's keys collide. *)
Theorem origin_row_keys_are_distinct o o' i j :
  i ≠ j → originRowKey o i ≠ originRowKey o' j.
Proof.
  intros Hij Heq. apply Hij. unfold originRowKey in Heq.
  apply last_occurrence_unique in Heq;
    [|apply String_of_index_no_dash..].
  by apply (inj pretty) in Heq.
Qed.

(** On the two origins at the same address. *)
Lemma origin_row_keys_are_distinct_witness :
  originRowKey (mkOrigin None (Some "10.0.0.1") (Some true)) 0
  ≠ originRowKey (mkOrigin None (Some "10.0.0.1") (Some false)) 1
  ∧ originKey twinPool (mkOrigin None (Some "10.0.0.1") (Some true)) 0
    = originKey twinPool (mkOrigin None (Some "10.0.0.1") (Some false)) 1.
Proof.
  split; [|reflexivity].
  apply (origin_row_keys_are_distinct
           (mkOrigin None (Some "10.0.0.1") (Some true))
           (mkOrigin None (Some "10.0.0.1") (Some false)) 0 1).
  lia.
Defined.

(** ** The development proxy *)

(** X28.  In development the fetcher asks for [/cf/...]; the proxy strips
    [/cf] and forwards to its target, which gives exactly the URL the
    fetcher uses in production, for every account and page. *)
Theorem proxy_forwards_to_the_production_url tok acct page :
  proxyTarget +:+ rewritePath (url (pageRequest true tok acct page))
  = url (pageRequest false tok acct page)
  ∧ proxyTarget +:+ rewritePath (url (SingleFile.pageRequest true tok acct))
    = url (SingleFile.pageRequest false tok acct)
  ∧ String.prefix "/cf" (url (pageRequest true tok acct page)) = true
  ∧ rewritePath (url (pageRequest false tok acct page))
    = url (pageRequest false tok acct page).
Proof. by repeat split. Qed.
